(** * A Naive Bayes spam filter (bayes_spamfilter.ipynb)

    Shallow embedding of the notebook's data cleaning, its training cells and
    its [classify] function, followed by the properties of its specification.

    - Text is a list of Unicode code points; the character data of the
      Python runtime ([\W] of [re], [str.lower], [str.split]) is a type class.
    - Dictionaries are [gmap]s, the vocabulary is the list of elements of a
      [gset], data frame columns are lists.
    - Python exceptions ([KeyError], [IndexError]) are an error monad.
    - Numbers are a type class, instantiated with exact rationals, with
      binary64 floats and with real numbers. *)

From Stdlib Require Import ZArith QArith Qround Reals Lra Floats Ascii String.
From stdpp Require Import base option list gmap.

(** * Part I: the program *)

(** ** Text *)

Abbreviation codepoint := N.
Abbreviation str := (list codepoint).

Definition space : codepoint := 32%N.

(** The Unicode data the three library calls of the cleaning step consult:
    [is_word c] is the class [\w] of [re], [lower_cp c] the lowercase mapping
    of [str.lower] (one code point may map to several), [is_space c] the
    separators of [str.split()].  [str.lower] maps code point by code point,
    except that U+03A3 maps to U+03C3 or U+03C2 after its context; the model
    takes the mapping per code point.  The three laws hold of Unicode. *)
Class UnicodeData := {
  is_word : codepoint → bool;
  lower_cp : codepoint → str;
  is_space : codepoint → bool;
  is_space_space : is_space space = true;
  lower_cp_space : lower_cp space = [space];
  is_space_not_word c : is_space c = true → is_word c = false
}.

Section tokenizer.
Context `{UnicodeData}.

(** [re.sub('\W', ' ', message)]: every non-word character becomes a space. *)
Definition re_sub_W (message : str) : str :=
  (λ c, if is_word c then c else space) <$> message.

(** [.lower()] *)
Definition lower (message : str) : str := message ≫= lower_cp.

(** [.split()]: [cur] is the word being read. *)
Definition emit (cur : str) (rest : list str) : list str :=
  match cur with [] => rest | _ => cur :: rest end.

Fixpoint split_from (cur : str) (message : str) : list str :=
  match message with
  | [] => emit cur []
  | c :: message' =>
      if is_space c then emit cur (split_from [] message')
      else split_from (cur ++ [c]) message'
  end.

Definition split (message : str) : list str := split_from [] message.

(** [re.sub('\W', ' ', message).lower().split()], the first statement of
    [classify]; the cleaning cells apply the same three calls to the [SMS]
    column of the training set. *)
Definition tokenize (message : str) : list str :=
  split (lower (re_sub_W message)).

(** The tokenizer as the specification words it: every maximal run of
    non-word characters becomes one space.  [in_run] tells that the previous
    character belonged to such a run. *)
Fixpoint collapse_runs (in_run : bool) (message : str) : str :=
  match message with
  | [] => []
  | c :: message' =>
      if is_word c then c :: collapse_runs false message'
      else if in_run then collapse_runs true message'
      else space :: collapse_runs true message'
  end.

Definition tokenize_spec (message : str) : list str :=
  split (lower (collapse_runs false message)).

(** A token of [split]: not empty, and free of separators. *)
Definition is_token (w : str) : Prop :=
  w ≠ [] ∧ Forall (λ c, is_space c = false) w.

End tokenizer.

(** ** Numbers

    The arithmetic of the notebook is Python's: an integer is promoted to
    the type of the other operand ([of_int]) and [/] is true division.  The
    counts and lengths of the notebook are integers up to the division; on
    floats their promotion before the sums gives the same quotient as long as
    they stay below 2^53. *)
Class Number (A : Type) := {
  of_int : Z → A;
  num_add : A → A → A;
  num_mul : A → A → A;
  num_div : A → A → A;
  num_lt : A → A → bool
}.

Declare Scope num_scope.
Delimit Scope num_scope with num.
Infix "+" := num_add : num_scope.
Infix "*" := num_mul : num_scope.
Infix "/" := num_div : num_scope.
Infix "<?" := num_lt : num_scope.

(** Exact rational arithmetic. *)
#[export] Instance Q_number : Number Q := {
  of_int := inject_Z;
  num_add := Qplus;
  num_mul := Qmult;
  num_div := Qdiv;
  num_lt x y := if Qlt_le_dec x y then true else false
}.

(** The numbers the notebook runs on: IEEE 754 binary64, integers rounded to
    the nearest float. *)
#[export] Instance float_number : Number float := {
  of_int n := SF2Prim (binary_normalize prec emax n 0 false);
  num_add := PrimFloat.add;
  num_mul := PrimFloat.mul;
  num_div := PrimFloat.div;
  num_lt := PrimFloat.ltb
}.

(** Real numbers, where logarithms live. *)
#[export] Instance R_number : Number R := {
  of_int := IZR;
  num_add := Rplus;
  num_mul := Rmult;
  num_div := Rdiv;
  num_lt x y := if Rlt_dec x y then true else false
}.

(** What the comparisons of [classify] rest on, in every number type the
    program can run on: [num_eq] is the equality of the numbers ([==] of
    Python), [num_nan] holds of a value that is not a number, and [<] is
    asymmetric, false between equal numbers, and leaves two numbers that are
    neither below the other equal unless one of them is not a number. *)
Class OrderedNumber (A : Type) `{Number A} := {
  num_eq : A → A → Prop;
  num_nan : A → Prop;
  num_lt_asym x y : num_lt x y = true → num_lt y x = false;
  num_eq_not_lt x y : num_eq x y → num_lt x y = false ∧ num_lt y x = false;
  num_not_lt_eq x y :
    num_lt x y = false → num_lt y x = false → num_eq x y ∨ num_nan x ∨ num_nan y
}.

(** ** Labels and exceptions *)

(** The two values of the [Label] column. *)
Inductive label := ham | spam.

#[export] Instance label_eq_dec : EqDecision label.
Proof. solve_decision. Defined.

#[export] Instance label_countable : Countable label.
Proof.
  refine (inj_countable' (λ l, match l with ham => false | spam => true end)
            (λ b : bool, if b then spam else ham) _).
  by intros [].
Defined.

(** The exceptions the training cells can raise: a missing key of
    [proportions], a missing key or column of the count table, a list index
    out of range. *)
Inductive Exception :=
  | KeyError_label (l : label)
  | KeyError_word (word : str)
  | IndexError.

Inductive Result (X : Type) :=
  | Ok (x : X)
  | Raise (e : Exception).
Arguments Ok {X} x.
Arguments Raise {X} e.

#[export] Instance Result_ret : MRet Result := @Ok.
#[export] Instance Result_bind : MBind Result := λ X Y f r,
  match r with Ok x => f x | Raise e => Raise e end.

(** A [for] loop whose body may raise. *)
Fixpoint for_each {S X} (body : S → X → Result S) (s : S) (xs : list X) : Result S :=
  match xs with
  | [] => Ok s
  | x :: xs' => s' ← body s x; for_each body s' xs'
  end.

(** ** Data frames *)

(** The data frame [final_training]: the columns [Label] and [SMS], and one
    column of counts per word.  Every word column is lowercase text, so none
    takes the place of [Label] or [SMS]. *)
Record DataFrame := {
  Label : list label;
  SMS : list (list str);
  word_columns : gmap str (list Z)
}.

(** [column.sum()] *)
Definition sum (column : list Z) : Z := foldr Z.add 0%Z column.

(** [df[word]] *)
Definition getitem_column (df : DataFrame) (word : str) : Result (list Z) :=
  match word_columns df !! word with
  | Some column => Ok column
  | None => Raise (KeyError_word word)
  end.

(** Selection of the rows a boolean mask marks. *)
Fixpoint select {X} (mask : list bool) (column : list X) : list X :=
  match mask, column with
  | b :: mask', x :: column' =>
      if b then x :: select mask' column' else select mask' column'
  | _, _ => []
  end.

(** [df[df['Label'] == l]] *)
Definition rows_labelled (l : label) (df : DataFrame) : DataFrame :=
  let mask := (λ l', bool_decide (l' = l)) <$> Label df in
  {| Label := select mask (Label df);
     SMS := select mask (SMS df);
     word_columns := select mask <$> word_columns df |}.

(** [df['Label'].value_counts(normalize = True)]: the share of every label
    that occurs; a label that does not occur has no entry. *)
Definition value_counts (labels : list label) : gmap label Z :=
  foldl (λ counts l, <[l := (default 0 (counts !! l) + 1)%Z]> counts) ∅ labels.

Definition value_counts_normalize `{Number A} (labels : list label) : gmap label A :=
  (λ n, of_int n / of_int (Z.of_nat (length labels)))%num <$> value_counts labels.

(** [proportions[l]] *)
Definition getitem_label {A} (proportions : gmap label A) (l : label) : Result A :=
  match proportions !! l with
  | Some p => Ok p
  | None => Raise (KeyError_label l)
  end.

(** ** Training *)

(** The trained model: the globals [classify] reads. *)
Record Model (A : Type) := {
  p_spam : A;
  p_ham : A;
  p_given_spam : gmap str A;
  p_given_ham : gmap str A
}.
Arguments p_spam {A} _.
Arguments p_ham {A} _.
Arguments p_given_spam {A} _.
Arguments p_given_ham {A} _.

Section training.
Context `{UnicodeData}.

(** Cells "Data cleaning" and "Tokenizing messages": the [SMS] column
    with non-word characters replaced, lowercased and split. *)
Definition msgs_train_cln (msgs_train : list (label * str)) : list (label * list str) :=
  (λ '(l, sms), (l, tokenize sms)) <$> msgs_train.

(** [list(set(vocabulary))]: the distinct words, in the set's order. *)
Definition vocabulary (cln : list (label * list str)) : list str :=
  elements (list_to_set (concat cln.*2) : gset str).

(** [word_counts_per_sms[word][index] += 1] *)
Definition increment (counts : gmap str (list Z)) (word : str) (index : nat)
    : Result (gmap str (list Z)) :=
  match counts !! word with
  | None => Raise (KeyError_word word)
  | Some column =>
      match column !! index with
      | None => Raise IndexError
      | Some n => Ok (<[word := <[index := (n + 1)%Z]> column]> counts)
      end
  end.

(** The inner loop of the population: the words of message [index]. *)
Definition count_message (counts : gmap str (list Z)) (row : nat * list str)
    : Result (gmap str (list Z)) :=
  let '(index, sms) := row in
  for_each (λ counts word, increment counts word index) counts sms.

(** The dictionary of one zeroed list per word, one slot per message,
    populated message by message. *)
Definition word_counts_per_sms (cln : list (label * list str))
    : Result (gmap str (list Z)) :=
  let zeros : gmap str (list Z) :=
    list_to_map ((λ word, (word, replicate (length cln) 0%Z)) <$> vocabulary cln) in
  for_each count_message zeros (imap pair cln.*2).

(** [pd.concat([msgs_train_cln, word_count_df], axis=1)] *)
Definition final_training (cln : list (label * list str)) : Result DataFrame :=
  counts ← word_counts_per_sms cln;
  Ok {| Label := cln.*1; SMS := cln.*2; word_columns := counts |}.

(** [train_spam['SMS'].apply(len).sum()] *)
Definition n_words (train_l : DataFrame) : Z :=
  sum ((λ sms : list str, Z.of_nat (length sms)) <$> SMS train_l).

(** [train_l[word].sum()], for every word of the vocabulary. *)
Definition column_sums (train_l : DataFrame) (vocabulary : list str) : Result (list Z) :=
  mapM (λ word, column ← getitem_column train_l word; Ok (sum column)) vocabulary.

Section numbers.
Context `{Number A}.

(** The likelihood of [word] in the messages [train_l] of one label. *)
Definition likelihood (alpha : A) (vocabulary : list str) (train_l : DataFrame)
    (word : str) : Result A :=
  column ← getitem_column train_l word;
  Ok ((of_int (sum column) + alpha)
      / (of_int (n_words train_l) + alpha * of_int (Z.of_nat (length vocabulary))))%num.

(** The body of the loop over the vocabulary: one entry for [word] in each
    of the two dictionaries. *)
Definition add_word (alpha : A) (vocabulary : list str) (train_spam train_ham : DataFrame)
    (tables : gmap str A * gmap str A) (word : str) : Result (gmap str A * gmap str A) :=
  let '(p_given_spam, p_given_ham) := tables in
  s ← likelihood alpha vocabulary train_spam word;
  h ← likelihood alpha vocabulary train_ham word;
  Ok (<[word := s]> p_given_spam, <[word := h]> p_given_ham).

(** The training cells in their order, from the training set to the
    globals of [classify]: the count table, the priors ("Calculating the
    priors"), the rows of each label and the two dictionaries ("Calculating
    likelihoods").  [alpha] is 1 in the notebook. *)
Definition train (alpha : A) (msgs_train : list (label * str)) : Result (Model A) :=
  let cln := msgs_train_cln msgs_train in
  let vocabulary := vocabulary cln in
  final_training ← final_training cln;
  let proportions := value_counts_normalize (Label final_training) in
  p_spam ← getitem_label proportions spam;
  p_ham ← getitem_label proportions ham;
  let train_spam := rows_labelled spam final_training in
  let train_ham := rows_labelled ham final_training in
  '(p_given_spam, p_given_ham) ←
    for_each (add_word alpha vocabulary train_spam train_ham) (∅, ∅) vocabulary;
  Ok {| p_spam := p_spam; p_ham := p_ham;
        p_given_spam := p_given_spam; p_given_ham := p_given_ham |}.

(** ** Classification *)

(** The answers of [classify]: ['ham'], ['spam'] or ['unclassified']. *)
Inductive classified :=
  | classified_as (l : label)
  | unclassified.

(** The body of the loop of [classify]: each of the two unnormalised
    posteriors is multiplied by the likelihood of [word] when its table holds
    the word. *)
Definition multiply (m : Model A) (posteriors : A * A) (word : str) : A * A :=
  let '(p_spam_given_message, p_ham_given_message) := posteriors in
  let p_spam_given_message :=
    match p_given_spam m !! word with
    | Some p => (p_spam_given_message * p)%num
    | None => p_spam_given_message
    end in
  let p_ham_given_message :=
    match p_given_ham m !! word with
    | Some p => (p_ham_given_message * p)%num
    | None => p_ham_given_message
    end in
  (p_spam_given_message, p_ham_given_message).

(** The loop over the words of the message: the pair
    [(p_spam_given_message, p_ham_given_message)]. *)
Definition posteriors (m : Model A) (message : list str) : A * A :=
  foldl (multiply m) (p_spam m, p_ham m) message.

(** The comparison that ends [classify]. *)
Definition compare_posteriors (p_spam_given_message p_ham_given_message : A) : classified :=
  if (p_spam_given_message <? p_ham_given_message)%num then classified_as ham
  else if (p_ham_given_message <? p_spam_given_message)%num then classified_as spam
  else unclassified.

(** [classify(message)], with the globals it reads gathered in [m]. *)
Definition classify (m : Model A) (message : str) : classified :=
  let message := tokenize message in
  let '(p_spam_given_message, p_ham_given_message) := posteriors m message in
  compare_posteriors p_spam_given_message p_ham_given_message.

End numbers.
End training.

(** ** Classification in log-space

    The decision as the specification wants it computed: the sums of the
    logarithms of the prior and of the likelihood of every word of the
    message the table holds, compared. *)
Section log_space.
Context `{UnicodeData}.

Definition add_logs (m : Model R) (logs : R * R) (word : str) : R * R :=
  let '(log_spam, log_ham) := logs in
  let log_spam :=
    match p_given_spam m !! word with
    | Some p => (log_spam + ln p)%R
    | None => log_spam
    end in
  let log_ham :=
    match p_given_ham m !! word with
    | Some p => (log_ham + ln p)%R
    | None => log_ham
    end in
  (log_spam, log_ham).

Definition log_posteriors (m : Model R) (message : list str) : R * R :=
  foldl (add_logs m) (ln (p_spam m), ln (p_ham m)) message.

Definition classify_log (m : Model R) (message : str) : classified :=
  let message := tokenize message in
  let '(log_spam, log_ham) := log_posteriors m message in
  compare_posteriors log_spam log_ham.

End log_space.

(** ** ASCII text

    The Unicode data restricted to ASCII, for running the program on
    examples: exact on the code points below 128; the others count as
    symbols. *)
Definition in_range (lo hi c : codepoint) : bool := ((lo <=? c) && (c <=? hi))%N.

Definition ascii_is_word (c : codepoint) : bool :=
  in_range 48 57 c || in_range 65 90 c || in_range 97 122 c || (c =? 95)%N.

Definition ascii_lower (c : codepoint) : str :=
  if in_range 65 90 c then [(c + 32)%N] else [c].

Definition ascii_is_space (c : codepoint) : bool :=
  in_range 9 13 c || in_range 28 32 c.

#[export] Instance ascii_data : UnicodeData.
Proof.
  refine {| is_word := ascii_is_word; lower_cp := ascii_lower; is_space := ascii_is_space;
            is_space_space := eq_refl; lower_cp_space := eq_refl |}.
  intros c. unfold ascii_is_space, ascii_is_word, in_range.
  rewrite !orb_true_iff, !andb_true_iff, !N.leb_le. intros Hc.
  repeat apply orb_false_intro;
    rewrite ?andb_false_iff, ?N.leb_gt, ?N.eqb_neq; lia.
Defined.

(** The code points of an ASCII literal. *)
Definition text (s : String.string) : str :=
  N_of_ascii <$> String.list_ascii_of_string s.

(** ** The quantities of the specification

    What the specification's training procedure computes, in its words, on
    the cleaned training set; the theorems compare the tables of [train] with
    them. *)
Section specification.
Context `{Number A}.

(** The token sequences of the messages of category [l]. *)
Definition messages_of (l : label) (cln : list (label * list str)) : list (list str) :=
  (filter (λ row, row.1 = l) cln).*2.

(** The number of occurrences of [word] in a token sequence. *)
Definition occurrences (word : str) (message : list str) : Z :=
  Z.of_nat (length (filter (λ w, w = word) message)).

(** [word_counts[l][word]]: the occurrences of [word] across all messages of
    category [l]. *)
Definition word_counts (l : label) (cln : list (label * list str)) (word : str) : Z :=
  occurrences word (concat (messages_of l cln)).

(** [total_word_count[l]]: the sum of the token-sequence lengths over the
    messages of category [l]. *)
Definition total_word_count (l : label) (cln : list (label * list str)) : Z :=
  sum ((λ sms : list str, Z.of_nat (length sms)) <$> messages_of l cln).

(** [prior[l]]: messages of category [l] over all messages. *)
Definition prior (l : label) (cln : list (label * list str)) : A :=
  (of_int (Z.of_nat (length (messages_of l cln))) / of_int (Z.of_nat (length cln)))%num.

(** [conditional_probability[l][word]], the smoothed estimate; [size_V] is
    the size of the vocabulary. *)
Definition conditional_probability (alpha : A) (size_V : nat) (l : label)
    (cln : list (label * list str)) (word : str) : A :=
  ((of_int (word_counts l cln word) + alpha)
   / (of_int (total_word_count l cln) + alpha * of_int (Z.of_nat size_V)))%num.

End specification.

(** The score of one category as the specification defines it: the prior
    times the likelihoods of the recognized words, those of the vocabulary
    [V], in the order of the message. *)
Definition recognized (V : list str) (message : list str) : list str :=
  filter (λ word, word ∈ V) message.

Definition score `{Number A} (prior : A) (table : gmap str A) (V : list str)
    (message : list str) : A :=
  foldl num_mul prior ((λ word, default (of_int 0) (table !! word)) <$> recognized V message).

(** ** Loop invariants *)

(** [counts] holds exactly the words of [V], each with the column
    [column word]. *)
Definition tabulates {X} (V : list str) (counts : gmap str X) (column : str → X) : Prop :=
  ∀ word, counts !! word = if decide (word ∈ V) then Some (column word) else None.

(** A model of rationals whose priors and likelihoods are all above zero. *)
Definition positive_model (m : Model Q) : Prop :=
  (0 < p_spam m)%Q ∧ (0 < p_ham m)%Q
  ∧ map_Forall (λ _ p, 0 < p)%Q (p_given_spam m)
  ∧ map_Forall (λ _ p, 0 < p)%Q (p_given_ham m).

(** ** Models in other numbers *)

Definition map_model {A B} (f : A → B) (m : Model A) : Model B :=
  {| p_spam := f (p_spam m); p_ham := f (p_ham m);
     p_given_spam := f <$> p_given_spam m; p_given_ham := f <$> p_given_ham m |}.

(** The rational a finite float stands for. *)
Definition float_value (x : float) : Q :=
  match Prim2SF x with
  | S754_finite s m e => ((if s then -1 else 1) * inject_Z (Z.pos m) * Qpower 2 e)%Q
  | _ => 0%Q
  end.

(** The real numbers a model of floats stands for. *)
Definition real_model (m : Model float) : Model R :=
  map_model Q2R (map_model float_value m).

(** ** Example inputs *)

(** The first three messages of the corpus, after section 8 of the
    specification. *)
Definition corpus_head : list (label * str) :=
  [(ham, text "Go until jurong point, crazy.. Available only");
   (ham, text "Ok lar... Joking wif u oni...");
   (spam, text "Free entry in 2 a wkly comp to win FA Cup")].

(** A training set whose likelihoods are powers of two: with [alpha] 1 the
    word "a" has likelihood 1/4 in ham and 1/8 in spam. *)
Definition corpus_dyadic : list (label * str) :=
  [(ham, text "a b c d"); (spam, text "b b c d")].

(** A message of 600 words "a". *)
Definition message_long : str := concat (replicate 600 (text "a ")).

(** A training set of one ham and one spam message. *)
Definition corpus_two : list (label * str) :=
  [(ham, text "a"); (spam, text "b")].

(** A training set on which the two scores of the message "c" are both
    3/20 in exact arithmetic and differ in floats. *)
Definition corpus_tie : list (label * str) :=
  [(ham, text "c c a"); (spam, text "a"); (spam, text "a"); (spam, text "a")].



(** The models the training cells build from them. *)
Definition model_two : Model Q :=
  {| p_spam := 1 # 2; p_ham := 1 # 2;
     p_given_spam := list_to_map [(text "a", 1 # 3); (text "b", 2 # 3)];
     p_given_ham := list_to_map [(text "a", 2 # 3); (text "b", 1 # 3)] |}.

Definition model_two_alpha_zero : Model float :=
  {| p_spam := 0.5%float; p_ham := 0.5%float;
     p_given_spam := list_to_map [(text "a", 0%float); (text "b", 1%float)];
     p_given_ham := list_to_map [(text "a", 1%float); (text "b", 0%float)] |}.

Definition model_dyadic : Model float :=
  {| p_spam := 0.5%float; p_ham := 0.5%float;
     p_given_spam :=
       list_to_map [(text "a", 0.125%float); (text "b", 0.375%float);
                    (text "c", 0.25%float); (text "d", 0.25%float)];
     p_given_ham :=
       list_to_map [(text "a", 0.25%float); (text "b", 0.25%float);
                    (text "c", 0.25%float); (text "d", 0.25%float)] |}.

(** ** The cells around the model *)

(** *** Train/test split *)

(** [round(x)] of Python on a float: the nearest integer, a tie going to
    the even one. *)
Definition round_half_even (q : Q) : Z :=
  let below := Qfloor q in
  match (q - inject_Z below ?= 1 # 2)%Q with
  | Lt => below
  | Gt => (below + 1)%Z
  | Eq => if Z.even below then below else (below + 1)%Z
  end.

Definition round (x : float) : Z := round_half_even (float_value x).

(** [round(len(msgs_random) * 0.8)], in the floats of the notebook; the
    float that [0.8] denotes is 0x1.999999999999ap-1. *)
Definition split_index (len : nat) : Z :=
  round (of_int (Z.of_nat len) * 0x1.999999999999ap-1%float)%num.

(** [msgs_random[:split_index]] and [msgs_random[split_index:]]; the index
    is never negative. *)
Definition msgs_train {X} (msgs_random : list X) : list X :=
  take (Z.to_nat (split_index (length msgs_random))) msgs_random.

Definition msgs_test {X} (msgs_random : list X) : list X :=
  drop (Z.to_nat (split_index (length msgs_random))) msgs_random.

(** *** The check that the likelihoods sum to 1 *)

(** [for k, v in p_given_spam.items(): counter_spam += v], over the items
    in the order the dictionary yields them. *)
Definition counter `{Number A} (items : list (str * A)) : A :=
  foldl (λ counter '(k, v), counter + v)%num (of_int 0) items.

(** *** Evaluation *)

(** [mapping_dict = {'ham':0, 'spam':1, 'unclassified':0}] *)
Definition mapping_dict (x : classified) : Z :=
  match x with
  | classified_as ham => 0
  | classified_as spam => 1
  | unclassified => 0
  end.

(** [(mask).sum()]: the number of rows the mask marks. *)
Definition count_rows {X} (mask : X → bool) (rows : list X) : Z :=
  Z.of_nat (length (filter (λ row, mask row = true) rows)).

#[export] Instance classified_eq_dec : EqDecision classified.
Proof. solve_decision. Defined.

Section evaluation.
Context `{UnicodeData} `{Number A}.

(** [msgs_test['Predicted'] = msgs_test['SMS'].apply(classify)], then
    [msgs_test[cols].applymap(lambda x: mapping_dict[x])]: the rows
    [(Label, Predicted)] as numbers. *)
Definition msgs_boolean (m : Model A) (msgs_test : list (label * str)) : list (Z * Z) :=
  (λ '(l, sms), (mapping_dict (classified_as l), mapping_dict (classify m sms)))
    <$> msgs_test.

Definition total_accuracy (msgs_boolean : list (Z * Z)) : A :=
  (of_int (count_rows (λ row, row.1 =? row.2)%Z msgs_boolean)
   / of_int (Z.of_nat (length msgs_boolean)))%num.

Definition true_pos (msgs_boolean : list (Z * Z)) : Z :=
  count_rows (λ row, (row.1 =? 1)%Z && (row.2 =? 1)%Z) msgs_boolean.

Definition false_neg (msgs_boolean : list (Z * Z)) : Z :=
  count_rows (λ row, (row.1 =? 1)%Z && (row.2 =? 0)%Z) msgs_boolean.

Definition false_pos (msgs_boolean : list (Z * Z)) : Z :=
  count_rows (λ row, (row.1 =? 0)%Z && (row.2 =? 1)%Z) msgs_boolean.

Definition tpr (msgs_boolean : list (Z * Z)) : A :=
  (of_int (true_pos msgs_boolean)
   / of_int (true_pos msgs_boolean + false_neg msgs_boolean))%num.

Definition precision (msgs_boolean : list (Z * Z)) : A :=
  (of_int (true_pos msgs_boolean)
   / of_int (true_pos msgs_boolean + false_pos msgs_boolean))%num.

Definition f1_score (msgs_boolean : list (Z * Z)) : A :=
  (of_int 2 * precision msgs_boolean * tpr msgs_boolean
   / (tpr msgs_boolean + precision msgs_boolean))%num.

End evaluation.

(** * Part II: properties *)

(** ** The order of the numbers *)

#[export] Instance Q_ordered : OrderedNumber Q.
Proof.
  refine {| num_eq := Qeq; num_nan := λ _, False |}; simpl; intros x y.
  - destruct (Qlt_le_dec x y) as [Hxy|_]; [intros _|done].
    destruct (Qlt_le_dec y x) as [Hyx|_]; [|done].
    destruct (Qlt_irrefl x). by transitivity y.
  - intros Heq. split.
    + destruct (Qlt_le_dec x y) as [Hlt|_]; [|done].
      rewrite Heq in Hlt. by apply Qlt_irrefl in Hlt.
    + destruct (Qlt_le_dec y x) as [Hlt|_]; [|done].
      rewrite Heq in Hlt. by apply Qlt_irrefl in Hlt.
  - destruct (Qlt_le_dec x y) as [|Hyx]; [done|].
    destruct (Qlt_le_dec y x) as [|Hxy]; [done|].
    intros _ _. left. by apply Qle_antisym.
Defined.

Lemma SFcompare_antisym (x y : spec_float) :
  SFcompare y x = CompOpp <$> SFcompare x y.
Proof.
  destruct x as [[]|[]| |[] mx ex], y as [[]|[]| |[] my ey]; try reflexivity; simpl;
    rewrite (Z.compare_antisym ex ey); destruct (ex ?= ey)%Z; simpl; try reflexivity;
    rewrite (Pos.compare_cont_antisym mx my); simpl; by rewrite ?CompOpp_involutive.
Qed.

Lemma SFcompare_None (x y : spec_float) :
  SFcompare x y = None → x = S754_nan ∨ y = S754_nan.
Proof. destruct x as [[]|[]| |[] mx ex], y as [[]|[]| |[] my ey]; simpl; by eauto. Qed.

Lemma is_nan_Prim2SF (x : float) : Prim2SF x = S754_nan → PrimFloat.is_nan x = true.
Proof. intros Hx. unfold PrimFloat.is_nan. by rewrite FloatAxioms.eqb_spec, Hx. Qed.

#[export] Instance float_ordered : OrderedNumber float.
Proof.
  refine {| num_eq := λ x y, PrimFloat.eqb x y = true;
            num_nan := λ x, PrimFloat.is_nan x = true |}; simpl; intros x y;
    rewrite ?ltb_spec, ?FloatAxioms.eqb_spec; unfold SFltb, SFeqb;
    rewrite (SFcompare_antisym x y) || rewrite (SFcompare_antisym (Prim2SF x) (Prim2SF y)).
  - by destruct (SFcompare (Prim2SF x) (Prim2SF y)) as [[]|].
  - by destruct (SFcompare (Prim2SF x) (Prim2SF y)) as [[]|].
  - destruct (SFcompare (Prim2SF x) (Prim2SF y)) as [[]|] eqn:Hcmp; simpl; try done.
    + by left.
    + intros _ _. right.
      destruct (SFcompare_None _ _ Hcmp) as [Hx|Hy]; [left|right]; by apply is_nan_Prim2SF.
Defined.

(** ** The tokenizer *)

Section tokenizer_properties.
Context `{UnicodeData}.

Lemma lower_cons c message : lower (c :: message) = lower_cp c ++ lower message.
Proof. reflexivity. Qed.

Lemma split_from_space cur message :
  split_from cur (space :: message) = emit cur (split_from [] message).
Proof. simpl. by rewrite is_space_space. Qed.

Lemma split_from_app cur pre message message' :
  (∀ cur', split_from cur' message = split_from cur' message') →
  split_from cur (pre ++ message) = split_from cur (pre ++ message').
Proof.
  intros Heq. revert cur.
  induction pre as [|c pre IH]; intros cur; simpl; [done|].
  destruct (is_space c); by rewrite IH.
Qed.

(** A run of spaces splits like a single one: the cleaned message and the
    message with its runs collapsed split alike, whatever word is being
    read, and also when a run has just begun. *)
Lemma split_collapse message :
  (∀ cur, split_from cur (lower (re_sub_W message))
          = split_from cur (lower (collapse_runs false message)))
  ∧ split_from [] (lower (re_sub_W message))
    = split_from [] (lower (collapse_runs true message)).
Proof.
  induction message as [|c message [IH1 IH2]]; [done|].
  unfold re_sub_W in *. rewrite fmap_cons. simpl collapse_runs.
  destruct (is_word c) eqn:Hc.
  - rewrite !lower_cons. split; intros; by apply split_from_app.
  - rewrite !lower_cons, lower_cp_space. simpl app. split.
    + intros cur. rewrite !split_from_space. by rewrite IH2.
    + rewrite split_from_space. simpl. by rewrite IH2.
Qed.

Lemma split_from_spaces n : split_from [] (replicate n space) = [].
Proof. induction n; simpl; [done|]. by rewrite is_space_space. Qed.

Lemma tokenize_whitespace message :
  Forall (λ c, is_space c = true) message → tokenize message = [].
Proof.
  intros Hws. unfold tokenize, split.
  assert (lower (re_sub_W message) = replicate (length message) space) as ->;
    [|apply split_from_spaces].
  induction Hws as [|c message Hc _ IH]; [done|].
  unfold re_sub_W in *. rewrite fmap_cons, lower_cons, IH.
  by rewrite (is_space_not_word _ Hc), lower_cp_space.
Qed.

Lemma split_from_tokens cur message :
  Forall (λ c, is_space c = false) cur →
  Forall is_token (split_from cur message).
Proof.
  revert cur. induction message as [|c message IH]; intros cur Hcur; simpl.
  - destruct cur; simpl; [constructor|].
    constructor; [by split|constructor].
  - destruct (is_space c) eqn:Hc.
    + destruct cur; simpl; [by apply IH|].
      constructor; [by split|by apply IH].
    + apply IH, Forall_app. by repeat constructor.
Qed.

(** C5: the tokenizer of the code, which turns every non-word character
    into a space, lowercases and splits on whitespace, yields for every
    message the token sequence of the specification's tokenizer, which turns
    every maximal run of non-word characters into one space; it is a total
    function; no token is empty or holds whitespace; an empty or
    whitespace-only message yields no token; and the cleaning cells leave
    every training message with its label and with the token sequence the
    specification's tokenizer gives it, in the order of the training set. *)
Theorem tokenize_meets_spec (message : str) (msgs_train : list (label * str)) :
  tokenize message = tokenize_spec message
  ∧ Forall is_token (tokenize message)
  ∧ tokenize [] = []
  ∧ (Forall (λ c, is_space c = true) message → tokenize message = [])
  ∧ msgs_train_cln msgs_train = (λ row, (row.1, tokenize_spec row.2)) <$> msgs_train.
Proof.
  split_and!.
  - apply split_collapse.
  - by apply split_from_tokens.
  - done.
  - apply tokenize_whitespace.
  - unfold msgs_train_cln. apply list_fmap_ext. intros i [l sms] _. simpl.
    f_equal. apply split_collapse.
Qed.

End tokenizer_properties.

(** ** Training *)

Section training_properties.

(** *** The population of [word_counts_per_sms] *)

Lemma for_each_cons {S X} (body : S → X → Result S) s x xs :
  for_each body s (x :: xs) = body s x ≫= λ s', for_each body s' xs.
Proof. reflexivity. Qed.

Lemma bind_Ok {X Y} (f : X → Result Y) x : Ok x ≫= f = f x.
Proof. reflexivity. Qed.

Lemma occurrences_nil word : occurrences word [] = 0%Z.
Proof. reflexivity. Qed.

Lemma occurrences_snoc word seen w :
  occurrences word (seen ++ [w])
  = (occurrences word seen + if decide (w = word) then 1 else 0)%Z.
Proof.
  unfold occurrences. rewrite filter_app, length_app, Nat2Z.inj_add.
  f_equal. rewrite filter_cons. by case_decide.
Qed.

Lemma occurrences_app word xs ys :
  occurrences word (xs ++ ys) = (occurrences word xs + occurrences word ys)%Z.
Proof. unfold occurrences. rewrite filter_app, length_app. lia. Qed.

Lemma occurrences_nonneg word xs : (0 ≤ occurrences word xs)%Z.
Proof. unfold occurrences. lia. Qed.

Lemma tabulates_ext {X} (V : list str) (counts : gmap str X) (f g : str → X) :
  (∀ word, f word = g word) → tabulates V counts f → tabulates V counts g.
Proof. intros Hfg Hf word. rewrite (Hf word). case_decide; by rewrite ?Hfg. Qed.

Lemma increment_tabulated V counts done seen rest word :
  word ∈ V →
  tabulates V counts
    (λ w, (occurrences w <$> done) ++ occurrences w seen :: replicate rest 0%Z) →
  ∃ counts', increment counts word (length done) = Ok counts'
    ∧ tabulates V counts'
        (λ w, (occurrences w <$> done) ++ occurrences w (seen ++ [word]) :: replicate rest 0%Z).
Proof.
  intros Hword Hcounts. unfold increment.
  rewrite (Hcounts word), decide_True by done.
  assert (length done = length (occurrences word <$> done)) as Hlen
    by by rewrite length_fmap.
  rewrite Hlen, list_lookup_middle by done.
  eexists; split; [done|]. intros w.
  destruct (decide (word = w)) as [->|Hne].
  - rewrite lookup_insert_eq, decide_True by done. f_equal.
    rewrite <-(Nat.add_0_r (length _)), insert_app_r. simpl.
    rewrite occurrences_snoc, decide_True by done. done.
  - rewrite lookup_insert_ne, (Hcounts w) by done. case_decide; [|done].
    rewrite occurrences_snoc, decide_False by done. by rewrite Z.add_0_r.
Qed.

Lemma count_message_tabulated V counts done seen todo rest :
  Forall (λ w, w ∈ V) todo →
  tabulates V counts
    (λ w, (occurrences w <$> done) ++ occurrences w seen :: replicate rest 0%Z) →
  ∃ counts', count_message counts (length done, todo) = Ok counts'
    ∧ tabulates V counts'
        (λ w, (occurrences w <$> done) ++ occurrences w (seen ++ todo) :: replicate rest 0%Z).
Proof.
  unfold count_message. simpl. intros Htodo. revert counts seen.
  induction Htodo as [|word todo Hword _ IH]; intros counts seen Hcounts.
  - exists counts. split; [done|]. by rewrite app_nil_r.
  - destruct (increment_tabulated _ _ _ _ _ _ Hword Hcounts) as (counts1 & Hinc & H1).
    destruct (IH _ _ H1) as (counts2 & Hrun & H2).
    simpl. rewrite Hinc. simpl.
    exists counts2. split; [done|].
    eapply tabulates_ext, H2. intros w. simpl. by rewrite <-app_assoc.
Qed.

Lemma count_messages_tabulated V counts done todo :
  Forall (Forall (λ w, w ∈ V)) todo →
  tabulates V counts (λ w, (occurrences w <$> done) ++ replicate (length todo) 0%Z) →
  ∃ counts',
    for_each count_message counts (imap (λ i sms, (length done + i, sms)) todo) = Ok counts'
    ∧ tabulates V counts' (λ w, occurrences w <$> done ++ todo).
Proof.
  intros Htodo. revert counts done.
  induction Htodo as [|sms todo Hsms _ IH]; intros counts done Hcounts.
  - exists counts. split; [done|].
    eapply tabulates_ext, Hcounts. intros w. simpl. by rewrite !app_nil_r.
  - destruct (count_message_tabulated V counts done [] sms (length todo) Hsms)
      as (counts1 & Hmsg & H1); [done|].
    rewrite imap_cons, for_each_cons, Nat.add_0_r, Hmsg, bind_Ok.
    destruct (IH counts1 (done ++ [sms])) as (counts2 & Hrun & H2).
    { eapply tabulates_ext, H1. intros w. simpl.
      by rewrite fmap_app, <-app_assoc. }
    exists counts2. split.
    + rewrite <-Hrun. f_equal. apply imap_ext. intros i x _. simpl.
      rewrite length_app. simpl. f_equal. lia.
    + eapply tabulates_ext, H2. intros w. simpl. by rewrite <-app_assoc.
Qed.

Lemma elem_of_concat {X} (x : X) (ls : list (list X)) :
  x ∈ concat ls ↔ ∃ l, l ∈ ls ∧ x ∈ l.
Proof.
  rewrite list_elem_of_In, in_concat. setoid_rewrite list_elem_of_In. naive_solver.
Qed.

Lemma elem_of_vocabulary cln word :
  word ∈ vocabulary cln ↔ ∃ sms, sms ∈ cln.*2 ∧ word ∈ sms.
Proof.
  unfold vocabulary. by rewrite elem_of_elements, elem_of_list_to_set, elem_of_concat.
Qed.

Lemma NoDup_vocabulary cln : NoDup (vocabulary cln).
Proof. unfold vocabulary. apply NoDup_elements. Qed.

Lemma zeros_tabulated V n :
  tabulates V (list_to_map ((λ word, (word, replicate n 0%Z)) <$> V) : gmap str (list Z))
    (λ _, replicate n 0%Z).
Proof.
  intros word. case_decide as Hword.
  - revert Hword. induction V as [|w V IH]; intros Hword; [set_solver|].
    rewrite fmap_cons. simpl.
    destruct (decide (w = word)) as [->|Hne]; [by rewrite lookup_insert_eq|].
    rewrite lookup_insert_ne by done. apply IH.
    by apply elem_of_cons in Hword as [|].
  - apply not_elem_of_list_to_map. rewrite <-list_fmap_compose.
    intros (w & -> & Hw)%list_elem_of_fmap. done.
Qed.

Lemma word_counts_per_sms_tabulated cln :
  ∃ counts, word_counts_per_sms cln = Ok counts
    ∧ tabulates (vocabulary cln) counts (λ word, occurrences word <$> cln.*2).
Proof.
  unfold word_counts_per_sms.
  destruct (count_messages_tabulated (vocabulary cln)
              (list_to_map ((λ word, (word, replicate (length cln) 0%Z)) <$> vocabulary cln))
              [] cln.*2) as (counts & Hrun & Hcounts).
  - apply Forall_forall. intros sms Hsms. apply Forall_forall. intros word Hword.
    apply elem_of_vocabulary. eauto.
  - simpl. rewrite length_fmap. apply zeros_tabulated.
  - exists counts. split; [|done]. rewrite <-Hrun. f_equal.
Qed.

(** *** Rows of one label *)

Lemma select_fmap {X Y} (f : X → Y) mask (column : list X) :
  select mask (f <$> column) = f <$> select mask column.
Proof.
  revert column. induction mask as [|b mask IH]; intros [|x column]; simpl; try done.
  destruct b; simpl; by rewrite IH.
Qed.

Lemma select_label l (cln : list (label * list str)) :
  select ((λ l', bool_decide (l' = l)) <$> cln.*1) cln.*2 = messages_of l cln.
Proof.
  unfold messages_of. induction cln as [|[l' sms] cln IH]; [done|].
  rewrite !fmap_cons, filter_cons. simpl. rewrite IH.
  case_bool_decide; by case_decide.
Qed.

Lemma sum_occurrences word (messages : list (list str)) :
  sum (occurrences word <$> messages) = occurrences word (concat messages).
Proof.
  induction messages as [|sms messages IH]; [done|].
  rewrite fmap_cons. simpl concat. by rewrite occurrences_app, <-IH.
Qed.

Section trained.
Context (cln : list (label * list str)) (df : DataFrame).
Hypothesis df_Label : Label df = cln.*1.
Hypothesis df_SMS : SMS df = cln.*2.
Hypothesis df_words :
  tabulates (vocabulary cln) (word_columns df) (λ word, occurrences word <$> cln.*2).

Lemma SMS_rows_labelled l : SMS (rows_labelled l df) = messages_of l cln.
Proof. simpl. rewrite df_Label, df_SMS. apply select_label. Qed.

Lemma n_words_rows_labelled l : n_words (rows_labelled l df) = total_word_count l cln.
Proof. unfold n_words. by rewrite SMS_rows_labelled. Qed.

Lemma getitem_column_rows_labelled l word :
  getitem_column (rows_labelled l df) word
  = if decide (word ∈ vocabulary cln)
    then Ok (occurrences word <$> messages_of l cln)
    else Raise (KeyError_word word).
Proof.
  unfold getitem_column. simpl. rewrite lookup_fmap, (df_words word).
  case_decide; [|done]. simpl.
  by rewrite select_fmap, df_Label, select_label.
Qed.

Lemma likelihood_rows_labelled `{Number A} (alpha : A) l word :
  likelihood alpha (vocabulary cln) (rows_labelled l df) word
  = if decide (word ∈ vocabulary cln)
    then Ok (conditional_probability alpha (length (vocabulary cln)) l cln word)
    else Raise (KeyError_word word).
Proof.
  unfold likelihood. rewrite getitem_column_rows_labelled.
  case_decide; [|done]. rewrite bind_Ok.
  by rewrite sum_occurrences, n_words_rows_labelled.
Qed.

Lemma add_words_tabulated `{Number A} (alpha : A) (ws : list str) tables :
  Forall (λ w, w ∈ vocabulary cln) ws →
  ∃ tables',
    for_each (add_word alpha (vocabulary cln) (rows_labelled spam df) (rows_labelled ham df))
      tables ws = Ok tables'
    ∧ ∀ word,
        tables'.1 !! word
        = (if decide (word ∈ ws)
           then Some (conditional_probability alpha (length (vocabulary cln)) spam cln word)
           else tables.1 !! word)
        ∧ tables'.2 !! word
        = (if decide (word ∈ ws)
           then Some (conditional_probability alpha (length (vocabulary cln)) ham cln word)
           else tables.2 !! word).
Proof.
  intros Hws. revert tables.
  induction Hws as [|w ws Hw _ IH]; intros [pgs pgh].
  - eexists. split; [done|]. intros word. rewrite decide_False; [done|set_solver].
  - rewrite for_each_cons. unfold add_word at 2.
    rewrite !likelihood_rows_labelled, !decide_True, !bind_Ok by done.
    destruct (IH (<[w := conditional_probability alpha (length (vocabulary cln)) spam cln w]> pgs,
                  <[w := conditional_probability alpha (length (vocabulary cln)) ham cln w]> pgh))
      as (tables' & Hrun & Htables).
    exists tables'. split; [done|]. intros word.
    destruct (Htables word) as [Hs Hh]. rewrite Hs, Hh. simpl. clear Hs Hh Htables.
    destruct (decide (w = word)) as [->|Hne].
    + rewrite !lookup_insert_eq, !(decide_True (P := word ∈ word :: ws))
        by apply list_elem_of_here.
      split; by destruct (decide (word ∈ ws)).
    + rewrite !lookup_insert_ne by done.
      destruct (decide (word ∈ ws)) as [Hin|Hin].
      * by rewrite !decide_True by by apply list_elem_of_further.
      * rewrite !decide_False; [done|by intros [|]%elem_of_cons..].
Qed.
End trained.

(** *** Priors *)

Lemma value_counts_foldl (labels : list label) (counts : gmap label Z) l :
  foldl (λ counts l, <[l := (default 0 (counts !! l) + 1)%Z]> counts) counts labels !! l
  = let n := length (filter (λ l', l' = l) labels) in
    if decide (n = 0) then counts !! l else Some (default 0 (counts !! l) + Z.of_nat n)%Z.
Proof.
  revert counts. induction labels as [|l' labels IH]; intros counts; [done|].
  simpl foldl. rewrite IH, filter_cons. simpl.
  destruct (decide (l' = l)) as [->|Hne].
  - rewrite lookup_insert_eq. simpl. case_decide; f_equal; lia.
  - by rewrite lookup_insert_ne.
Qed.

Lemma length_messages_of l (cln : list (label * list str)) :
  length (messages_of l cln) = length (filter (λ l', l' = l) cln.*1).
Proof.
  unfold messages_of. rewrite length_fmap.
  induction cln as [|[l' sms] cln IH]; [done|].
  rewrite fmap_cons, !filter_cons. simpl. repeat case_decide; simpl; congruence.
Qed.

Lemma getitem_proportions `{Number A} l (cln : list (label * list str)) :
  getitem_label (value_counts_normalize (A := A) cln.*1) l
  = if decide (messages_of l cln = []) then Raise (KeyError_label l) else Ok (prior l cln).
Proof.
  unfold getitem_label, value_counts_normalize, value_counts, prior.
  rewrite lookup_fmap, value_counts_foldl, lookup_empty, <-length_messages_of, length_fmap.
  simpl. destruct (messages_of l cln); simpl; [done|].
  by rewrite Z.add_0_l.
Qed.

(** *** The result of training *)

Lemma train_cases `{UnicodeData} `{Number A} (alpha : A) (msgs_train : list (label * str)) :
  let cln := msgs_train_cln msgs_train in
  let V := vocabulary cln in
  match train alpha msgs_train with
  | Ok m =>
      messages_of spam cln ≠ [] ∧ messages_of ham cln ≠ []
      ∧ p_spam m = prior spam cln ∧ p_ham m = prior ham cln
      ∧ tabulates V (p_given_spam m) (conditional_probability alpha (length V) spam cln)
      ∧ tabulates V (p_given_ham m) (conditional_probability alpha (length V) ham cln)
  | Raise e =>
      if decide (messages_of spam cln = []) then e = KeyError_label spam
      else messages_of ham cln = [] ∧ e = KeyError_label ham
  end.
Proof.
  intros cln V. subst V. unfold train, final_training. fold cln.
  destruct (word_counts_per_sms_tabulated cln) as (counts & -> & Hcounts).
  rewrite !bind_Ok. cbv beta zeta. simpl Label.
  rewrite !getitem_proportions.
  destruct (decide (messages_of spam cln = [])) as [|Hspam]; [done|].
  rewrite bind_Ok.
  destruct (decide (messages_of ham cln = [])) as [|Hham]; [done|].
  rewrite bind_Ok.
  destruct (add_words_tabulated cln
              {| Label := cln.*1; SMS := cln.*2; word_columns := counts |}
              eq_refl eq_refl Hcounts alpha (vocabulary cln) (∅, ∅))
    as ([pgs pgh] & -> & Htables).
  { by apply Forall_forall. }
  rewrite bind_Ok. simpl.
  split_and!; try done.
  - intros word. destruct (Htables word) as [Hword _]. simpl in Hword.
    by rewrite Hword, lookup_empty.
  - intros word. destruct (Htables word) as [_ Hword]. simpl in Hword.
    by rewrite Hword, lookup_empty.
Qed.
End training_properties.

(** ** The trained model *)

Section model_properties.
Context `{UnicodeData}.

Lemma messages_of_cln l (msgs_train : list (label * str)) :
  length (messages_of l (msgs_train_cln msgs_train))
  = length (filter (λ row, row.1 = l) msgs_train).
Proof.
  rewrite length_messages_of. unfold msgs_train_cln.
  induction msgs_train as [|[l' sms] msgs_train IH]; [done|].
  rewrite !fmap_cons, !filter_cons. simpl. case_decide; simpl; by rewrite IH.
Qed.

Lemma messages_of_nil l (msgs_train : list (label * str)) :
  messages_of l (msgs_train_cln msgs_train) = [] ↔ l ∉ msgs_train.*1.
Proof.
  rewrite <-length_zero_iff_nil, messages_of_cln.
  induction msgs_train as [|[l' sms] msgs_train IH]; simpl.
  - split; [intros _; apply not_elem_of_nil|done].
  - rewrite filter_cons, not_elem_of_cons. simpl. case_decide as Hl; simpl.
    + split; [done|]. by intros [? _].
    + rewrite IH. split; [by split|by intros [_ ?]].
Qed.

(** *** Counts sum to the number of words *)

Lemma sum_app xs ys : sum (xs ++ ys) = (sum xs + sum ys)%Z.
Proof. unfold sum. induction xs; simpl; lia. Qed.

Lemma sum_indicator (V : list str) (x : str) :
  NoDup V → x ∈ V → sum ((λ w, if decide (x = w) then 1 else 0)%Z <$> V) = 1%Z.
Proof.
  intros Hnd. induction Hnd as [|w V Hw Hnd IH]; intros Hx; [by apply elem_of_nil in Hx|].
  rewrite fmap_cons. change (sum (?a :: ?l)) with (a + sum l)%Z.
  destruct (decide (x = w)) as [->|Hne].
  - assert (sum ((λ w0, if decide (w = w0) then 1 else 0)%Z <$> V) = 0%Z) as ->; [|done].
    clear IH Hx Hnd. induction V as [|v V IH]; [done|].
    rewrite fmap_cons. change (sum (?a :: ?l)) with (a + sum l)%Z.
    rewrite not_elem_of_cons in Hw. destruct Hw as [Hv Hw].
    rewrite decide_False, IH by done. done.
  - rewrite IH; [done|]. by apply elem_of_cons in Hx as [|].
Qed.

Lemma sum_occurrences_vocabulary (V : list str) (message : list str) :
  NoDup V → Forall (λ w, w ∈ V) message →
  sum ((λ w, occurrences w message) <$> V) = Z.of_nat (length message).
Proof.
  intros Hnd Hmessage. induction Hmessage as [|x message Hx _ IH]; simpl.
  - induction V as [|v V IHV]; [done|].
    rewrite fmap_cons. change (sum (?a :: ?l)) with (a + sum l)%Z.
    rewrite IHV; [done|]. by apply NoDup_cons in Hnd as [_ ?].
  - rewrite Nat2Z.inj_succ, <-IH, <-Z.add_1_l, <-(sum_indicator V x) by done.
    clear. induction V as [|v V IHV]; [done|].
    rewrite !fmap_cons. change (sum (?a :: ?l)) with (a + sum l)%Z.
    rewrite IHV. change (x :: message) with ([x] ++ message).
    rewrite occurrences_app. unfold occurrences at 1. rewrite filter_cons.
    case_decide; simpl; lia.
Qed.

Lemma total_word_count_concat l (cln : list (label * list str)) :
  total_word_count l cln = Z.of_nat (length (concat (messages_of l cln))).
Proof.
  unfold total_word_count. induction (messages_of l cln) as [|sms messages IH]; [done|].
  rewrite fmap_cons. change (sum (?a :: ?l)) with (a + sum l)%Z.
  rewrite IH. simpl. rewrite length_app. lia.
Qed.

Lemma sum_word_counts l (cln : list (label * list str)) :
  sum (word_counts l cln <$> vocabulary cln) = total_word_count l cln.
Proof.
  rewrite total_word_count_concat. apply sum_occurrences_vocabulary.
  - apply NoDup_vocabulary.
  - apply Forall_forall. intros word (sms & Hsms & Hword)%elem_of_concat.
    apply elem_of_vocabulary. exists sms. split; [|done].
    unfold messages_of in Hsms.
    apply list_elem_of_fmap in Hsms as ([l' sms'] & -> & Hrow%list_elem_of_filter).
    apply list_elem_of_fmap. exists (l', sms'). by destruct Hrow.
Qed.

Lemma column_sums_rows_labelled l (cln : list (label * list str)) df (ws : list str) :
  Label df = cln.*1 →
  tabulates (vocabulary cln) (word_columns df) (λ word, occurrences word <$> cln.*2) →
  Forall (λ w, w ∈ vocabulary cln) ws →
  column_sums (rows_labelled l df) ws = Ok (word_counts l cln <$> ws).
Proof.
  intros HLabel Hwords Hws. unfold column_sums.
  induction Hws as [|w ws Hw _ IH]; [done|].
  simpl. rewrite (getitem_column_rows_labelled cln df HLabel Hwords), decide_True by done.
  rewrite bind_Ok, sum_occurrences. simpl. rewrite IH. done.
Qed.

(** C9: for every training set and each category, the population of the
    count table succeeds, the per-word counts [train_l[word].sum()] over the
    vocabulary are the specification's [word_counts], and they add up to
    [n_words] of the category, which is the sum of the token-sequence lengths
    over its messages. *)
Theorem word_counts_sum_to_total (msgs_train : list (label * str)) (l : label) :
  let cln := msgs_train_cln msgs_train in
  ∃ df counts,
    final_training cln = Ok df
    ∧ column_sums (rows_labelled l df) (vocabulary cln) = Ok counts
    ∧ counts = word_counts l cln <$> vocabulary cln
    ∧ sum counts = n_words (rows_labelled l df)
    ∧ n_words (rows_labelled l df) = total_word_count l cln.
Proof.
  intros cln. unfold final_training.
  destruct (word_counts_per_sms_tabulated cln) as (counts & -> & Hcounts).
  eexists _, _. split; [done|].
  assert (n_words (rows_labelled l {| Label := cln.*1; SMS := cln.*2; word_columns := counts |})
          = total_word_count l cln) as Hn
    by by apply n_words_rows_labelled.
  split_and!; [|done| |done].
  - apply column_sums_rows_labelled; [done..|]. by apply Forall_forall.
  - by rewrite Hn, sum_word_counts.
Qed.


Section any_number.
Context `{Number A}.

(** C2: in a trained model the entry of every vocabulary word [word] in
    the table of category [c] is
    [(word_counts[c][word] + alpha) / (total_word_count[c] + alpha * |V|)],
    with [word_counts] the occurrences of the word across the messages of the
    category and [total_word_count] the sum of their token-sequence
    lengths. *)
Theorem conditional_probability_formula (alpha : A) (msgs_train : list (label * str))
    (m : Model A) (word : str) :
  let cln := msgs_train_cln msgs_train in
  let V := vocabulary cln in
  train alpha msgs_train = Ok m →
  word ∈ V →
  p_given_spam m !! word
  = Some ((of_int (word_counts spam cln word) + alpha)
          / (of_int (total_word_count spam cln) + alpha * of_int (Z.of_nat (length V))))%num
  ∧ p_given_ham m !! word
    = Some ((of_int (word_counts ham cln word) + alpha)
            / (of_int (total_word_count ham cln) + alpha * of_int (Z.of_nat (length V))))%num.
Proof.
  intros cln V Htrain Hword.
  pose proof (train_cases alpha msgs_train) as Hcases. rewrite Htrain in Hcases.
  destruct Hcases as (_ & _ & _ & _ & Hspam & Hham).
  rewrite (Hspam word), (Hham word), !decide_True by done. done.
Qed.

(** C8: in a trained model the prior of each category is the number of
    training messages of the category divided by the number of training
    messages, with no smoothing. *)
Theorem prior_formula (alpha : A) (msgs_train : list (label * str)) (m : Model A) :
  train alpha msgs_train = Ok m →
  p_spam m
  = (of_int (Z.of_nat (length (filter (λ row, row.1 = spam) msgs_train)))
     / of_int (Z.of_nat (length msgs_train)))%num
  ∧ p_ham m
    = (of_int (Z.of_nat (length (filter (λ row, row.1 = ham) msgs_train)))
       / of_int (Z.of_nat (length msgs_train)))%num.
Proof.
  intros Htrain.
  pose proof (train_cases alpha msgs_train) as Hcases. rewrite Htrain in Hcases.
  destruct Hcases as (_ & _ & -> & -> & _).
  unfold prior. rewrite !messages_of_cln. unfold msgs_train_cln.
  by rewrite length_fmap.
Qed.


(** C4, amended: training raises [KeyError] when the training set is
    empty or holds no message of one of the two categories, before any table
    is built; it validates nothing else: whenever both categories are
    present it returns a model, whatever the smoothing constant. *)
Theorem train_fails_without_category (alpha : A) (msgs_train : list (label * str)) :
  (msgs_train = [] → train alpha msgs_train = Raise (KeyError_label spam))
  ∧ (spam ∉ msgs_train.*1 → train alpha msgs_train = Raise (KeyError_label spam))
  ∧ (spam ∈ msgs_train.*1 → ham ∉ msgs_train.*1 →
     train alpha msgs_train = Raise (KeyError_label ham))
  ∧ (spam ∈ msgs_train.*1 → ham ∈ msgs_train.*1 →
     ∃ m, train alpha msgs_train = Ok m).
Proof.
  pose proof (train_cases alpha msgs_train) as Hcases. simpl in Hcases.
  assert (spam ∉ msgs_train.*1 → train alpha msgs_train = Raise (KeyError_label spam))
    as Hno_spam.
  { intros Hspam%messages_of_nil.
    destruct (train alpha msgs_train) as [m|e]; [by destruct Hcases|].
    rewrite decide_True in Hcases by done. by subst e. }
  split_and!; [|done|..].
  - intros ->. apply Hno_spam, not_elem_of_nil.
  - intros Hspam Hham%messages_of_nil.
    destruct (train alpha msgs_train) as [m|e]; [by destruct Hcases as (_ & ? & _)|].
    rewrite decide_False in Hcases by by rewrite messages_of_nil; auto.
    by destruct Hcases as [_ ->].
  - intros Hspam Hham.
    destruct (train alpha msgs_train) as [m|e]; [by eauto|].
    exfalso. case_decide as Hnil.
    + by apply messages_of_nil in Hnil.
    + destruct Hcases as [Hnil' _]. by apply messages_of_nil in Hnil'.
Qed.

End any_number.


(** *** Positive likelihoods, in exact arithmetic *)

Lemma inject_Z_nonneg (n : Z) : (0 ≤ n)%Z → (0 <= inject_Z n)%Q.
Proof. intros Hn. unfold Qle. simpl. lia. Qed.

Lemma total_word_count_nonneg l (cln : list (label * list str)) :
  (0 ≤ total_word_count l cln)%Z.
Proof. rewrite total_word_count_concat. lia. Qed.

Lemma conditional_probability_pos (alpha : Q) (size_V : nat) l cln word :
  (0 < alpha)%Q → 0 < size_V →
  (0 < conditional_probability alpha size_V l cln word)%Q.
Proof.
  intros Halpha Hsize. unfold conditional_probability. simpl.
  apply Qlt_shift_div_l.
  - apply Qlt_le_trans with (0 + alpha * inject_Z (Z.of_nat size_V))%Q.
    + rewrite Qplus_0_l. apply Qmult_lt_0_compat; [done|].
      unfold Qlt. simpl. lia.
    + apply Qplus_le_l, inject_Z_nonneg, total_word_count_nonneg.
  - rewrite Qmult_0_l.
    apply Qlt_le_trans with (0 + alpha)%Q; [by rewrite Qplus_0_l|].
    apply Qplus_le_l, inject_Z_nonneg, occurrences_nonneg.
Qed.


End model_properties.

(** ** Classification *)

Section classification_properties.
Context `{UnicodeData}.

Lemma multiply_unknown `{Number A} (m : Model A) posteriors word :
  p_given_spam m !! word = None → p_given_ham m !! word = None →
  multiply m posteriors word = posteriors.
Proof. intros Hs Hh. destruct posteriors. unfold multiply. by rewrite Hs, Hh. Qed.

(** Words outside the keys of both tables leave the posteriors alone. *)
Lemma foldl_multiply_recognized `{Number A} (m : Model A) (V : list str) posteriors message :
  (∀ word, word ∉ V → p_given_spam m !! word = None ∧ p_given_ham m !! word = None) →
  foldl (multiply m) posteriors message
  = foldl (multiply m) posteriors (recognized V message).
Proof.
  intros Hunknown. revert posteriors. unfold recognized.
  induction message as [|word message IH]; intros posteriors; [done|].
  rewrite filter_cons. case_decide as Hword; simpl; [done|].
  destruct (Hunknown word Hword) as [Hs Hh]. by rewrite multiply_unknown.
Qed.

(** On words of both tables the loop computes the two products. *)
Lemma foldl_multiply_score `{Number A} (m : Model A) (V : list str) (s h : A)
    (message : list str) :
  (∀ word, word ∈ V → is_Some (p_given_spam m !! word) ∧ is_Some (p_given_ham m !! word)) →
  Forall (λ word, word ∈ V) message →
  foldl (multiply m) (s, h) message
  = (foldl num_mul s ((λ word, default (of_int 0) (p_given_spam m !! word)) <$> message),
     foldl num_mul h ((λ word, default (of_int 0) (p_given_ham m !! word)) <$> message)).
Proof.
  intros Hknown Hmessage. revert s h.
  induction Hmessage as [|word message Hword _ IH]; intros s h; [done|].
  destruct (Hknown word Hword) as [[ps Hs] [ph Hh]].
  rewrite !fmap_cons. cbn [foldl]. unfold multiply at 2. rewrite Hs, Hh. simpl.
  apply IH.
Qed.

Lemma compare_posteriors_Q (s h : Q) :
  ((s < h)%Q → compare_posteriors s h = classified_as ham)
  ∧ ((h < s)%Q → compare_posteriors s h = classified_as spam)
  ∧ ((h == s)%Q → compare_posteriors s h = unclassified).
Proof.
  unfold compare_posteriors. simpl. split_and!; intros Hcmp.
  - destruct (Qlt_le_dec s h) as [|Hle]; [done|]. by apply Qle_not_lt in Hle.
  - destruct (Qlt_le_dec s h) as [Hlt|_].
    + destruct (Qlt_irrefl s). by transitivity h.
    + destruct (Qlt_le_dec h s) as [|Hle]; [done|]. by apply Qle_not_lt in Hle.
  - destruct (Qlt_le_dec s h) as [Hlt|_].
    + rewrite Hcmp in Hlt. by apply Qlt_irrefl in Hlt.
    + destruct (Qlt_le_dec h s) as [Hlt|_]; [|done].
      rewrite Hcmp in Hlt. by apply Qlt_irrefl in Hlt.
Qed.

Lemma trained_tables `{Number A} (alpha : A) msgs_train (m : Model A) :
  let V := vocabulary (msgs_train_cln msgs_train) in
  train alpha msgs_train = Ok m →
  (∀ word, word ∉ V → p_given_spam m !! word = None ∧ p_given_ham m !! word = None)
  ∧ (∀ word, word ∈ V → is_Some (p_given_spam m !! word) ∧ is_Some (p_given_ham m !! word)).
Proof.
  intros V Htrain.
  pose proof (train_cases alpha msgs_train) as Hcases. rewrite Htrain in Hcases.
  destruct Hcases as (_ & _ & _ & _ & Hspam & Hham).
  split; intros word Hword; rewrite (Hspam word), (Hham word).
  - by rewrite !decide_False.
  - rewrite !decide_True by done. eauto.
Qed.

Lemma posteriors_trained `{Number A} (alpha : A) (msgs_train : list (label * str))
    (m : Model A) (message : list str) :
  let V := vocabulary (msgs_train_cln msgs_train) in
  train alpha msgs_train = Ok m →
  posteriors m message
  = (score (p_spam m) (p_given_spam m) V message, score (p_ham m) (p_given_ham m) V message).
Proof.
  intros V Htrain. destruct (trained_tables alpha msgs_train m Htrain) as [Hunknown Hknown].
  unfold posteriors, score.
  rewrite (foldl_multiply_recognized m V) by done.
  apply (foldl_multiply_score m V); [done|].
  apply Forall_forall. by intros word [? ?]%list_elem_of_filter.
Qed.

Lemma compare_posteriors_ordered `{OrderedNumber A} (s h : A) :
  ((s <? h)%num = true → compare_posteriors s h = classified_as ham)
  ∧ ((h <? s)%num = true → compare_posteriors s h = classified_as spam)
  ∧ (num_eq h s → compare_posteriors s h = unclassified)
  ∧ (compare_posteriors s h = unclassified → num_eq h s ∨ num_nan h ∨ num_nan s).
Proof.
  unfold compare_posteriors. split_and!.
  - by intros ->.
  - intros Hhs. by rewrite (num_lt_asym h s Hhs), Hhs.
  - intros [Hhs Hsh]%num_eq_not_lt. by rewrite Hsh, Hhs.
  - destruct (s <? h)%num eqn:Hsh; [done|].
    destruct (h <? s)%num eqn:Hhs; [done|]. intros _. by apply num_not_lt_eq.
Qed.

(** C1: on a trained model, in every number type the program runs on
    (binary64 floats, exact rationals), [classify] answers ham when the ham
    score, the ham prior times the likelihoods of the recognized words
    multiplied in the order of the message, is strictly above the spam
    score, spam when the spam score is strictly above, and [unclassified]
    when the two scores are equal; it answers [unclassified] in no other
    case, but for a score that is not a number; with no recognized word the
    scores are the two priors. *)
Theorem classify_compares_scores `{OrderedNumber A} (alpha : A)
    (msgs_train : list (label * str)) (m : Model A) (message : str) :
  let V := vocabulary (msgs_train_cln msgs_train) in
  let score_ham := score (p_ham m) (p_given_ham m) V (tokenize message) in
  let score_spam := score (p_spam m) (p_given_spam m) V (tokenize message) in
  train alpha msgs_train = Ok m →
  ((score_spam <? score_ham)%num = true → classify m message = classified_as ham)
  ∧ ((score_ham <? score_spam)%num = true → classify m message = classified_as spam)
  ∧ (num_eq score_ham score_spam → classify m message = unclassified)
  ∧ (classify m message = unclassified →
     num_eq score_ham score_spam ∨ num_nan score_ham ∨ num_nan score_spam)
  ∧ (recognized V (tokenize message) = [] →
     score_ham = p_ham m ∧ score_spam = p_spam m).
Proof.
  intros V score_ham score_spam Htrain. unfold classify.
  rewrite (posteriors_trained alpha msgs_train m _ Htrain).
  fold V score_ham score_spam.
  destruct (compare_posteriors_ordered score_spam score_ham) as (Hham & Hspam & Htie & Honly).
  split_and!; [done..|].
  intros Hnone. unfold score_ham, score_spam, score. by rewrite Hnone.
Qed.

(** C7: on a trained model, in every number type the program runs on, the
    words of the message outside the vocabulary contribute no factor to
    either score: the posteriors of the message are those of its recognized
    words; for a message of one word outside the vocabulary the posteriors
    are the two priors, the answer is their comparison, and it is
    [unclassified] when the priors are equal and in no other case, but for a
    prior that is not a number. *)
Theorem unknown_words_are_skipped `{OrderedNumber A} (alpha : A)
    (msgs_train : list (label * str)) (m : Model A) (message : str) :
  let V := vocabulary (msgs_train_cln msgs_train) in
  train alpha msgs_train = Ok m →
  posteriors m (tokenize message) = posteriors m (recognized V (tokenize message))
  ∧ ∀ word, tokenize message = [word] → word ∉ V →
      posteriors m (tokenize message) = (p_spam m, p_ham m)
      ∧ classify m message = compare_posteriors (p_spam m) (p_ham m)
      ∧ (num_eq (p_ham m) (p_spam m) → classify m message = unclassified)
      ∧ (classify m message = unclassified →
         num_eq (p_ham m) (p_spam m) ∨ num_nan (p_ham m) ∨ num_nan (p_spam m)).
Proof.
  intros V Htrain. destruct (trained_tables alpha msgs_train m Htrain) as [Hunknown _].
  split; [by apply foldl_multiply_recognized|].
  intros word Hmessage Hword.
  assert (posteriors m (tokenize message) = (p_spam m, p_ham m)) as Hpriors.
  { unfold posteriors. rewrite (foldl_multiply_recognized m V) by done.
    unfold recognized. by rewrite Hmessage, filter_cons, decide_False. }
  unfold classify. rewrite Hpriors.
  destruct (compare_posteriors_ordered (p_spam m) (p_ham m)) as (_ & _ & Htie & Honly).
  by split_and!.
Qed.

End classification_properties.

(** ** Log-space *)

Section log_space_properties.
Context `{UnicodeData}.

Lemma Q2R_pos (q : Q) : (0 < q)%Q → (0 < Q2R q)%R.
Proof. intros Hq. rewrite <-RMicromega.Q2R_0. by apply Qreals.Qlt_Rlt. Qed.

(** One step of the two loops: the logarithm of the product is the sum of
    the logarithms. *)
Lemma add_logs_multiply (m : Model Q) (s h : Q) (word : str) :
  positive_model m → (0 < s)%Q → (0 < h)%Q →
  ∃ s' h',
    multiply m (s, h) word = (s', h') ∧ (0 < s')%Q ∧ (0 < h')%Q
    ∧ add_logs (map_model Q2R m) (ln (Q2R s), ln (Q2R h)) word
      = (ln (Q2R s'), ln (Q2R h')).
Proof.
  intros (_ & _ & Hspam & Hham) Hs Hh.
  unfold multiply, add_logs. simpl. rewrite !lookup_fmap.
  assert (∃ s', (0 < s')%Q
    ∧ match p_given_spam m !! word with Some p => (s * p)%Q | None => s end = s'
    ∧ match Q2R <$> p_given_spam m !! word with
      | Some p => (ln (Q2R s) + ln p)%R | None => ln (Q2R s) end = ln (Q2R s'))
    as (s' & Hs' & -> & ->).
  { destruct (p_given_spam m !! word) as [p|] eqn:Hp; simpl; [|by exists s].
    apply Hspam in Hp. exists (s * p)%Q. split_and!; [by apply Qmult_lt_0_compat|done|].
    rewrite Qreals.Q2R_mult, ln_mult; [done|by apply Q2R_pos..]. }
  assert (∃ h', (0 < h')%Q
    ∧ match p_given_ham m !! word with Some p => (h * p)%Q | None => h end = h'
    ∧ match Q2R <$> p_given_ham m !! word with
      | Some p => (ln (Q2R h) + ln p)%R | None => ln (Q2R h) end = ln (Q2R h'))
    as (h' & Hh' & -> & ->).
  { destruct (p_given_ham m !! word) as [p|] eqn:Hp; simpl; [|by exists h].
    apply Hham in Hp. exists (h * p)%Q. split_and!; [by apply Qmult_lt_0_compat|done|].
    rewrite Qreals.Q2R_mult, ln_mult; [done|by apply Q2R_pos..]. }
  by exists s', h'.
Qed.

(** The logarithms of the posteriors are the log-posteriors. *)
Lemma foldl_add_logs (m : Model Q) (s h : Q) (message : list str) :
  positive_model m → (0 < s)%Q → (0 < h)%Q →
  ∃ s' h',
    foldl (multiply m) (s, h) message = (s', h') ∧ (0 < s')%Q ∧ (0 < h')%Q
    ∧ foldl (add_logs (map_model Q2R m)) (ln (Q2R s), ln (Q2R h)) message
      = (ln (Q2R s'), ln (Q2R h')).
Proof.
  intros Hm. revert s h.
  induction message as [|word message IH]; intros s h Hs Hh; [by exists s, h|].
  destruct (add_logs_multiply m s h word) as (s1 & h1 & Hmul & Hs1 & Hh1 & Hlog);
    [done..|].
  cbn [foldl]. rewrite Hmul, Hlog. by apply IH.
Qed.

Lemma compare_posteriors_ln (s h : Q) :
  (0 < s)%Q → (0 < h)%Q →
  compare_posteriors (ln (Q2R s)) (ln (Q2R h)) = compare_posteriors s h.
Proof.
  intros Hs%Q2R_pos Hh%Q2R_pos.
  assert (∀ a b : Q, (0 < Q2R a)%R → (0 < Q2R b)%R →
            (if Rlt_dec (ln (Q2R a)) (ln (Q2R b)) then true else false)
            = (if Qlt_le_dec a b then true else false)) as Hlt.
  { intros a b Ha Hb.
    destruct (Rlt_dec _ _) as [Hln|Hln], (Qlt_le_dec a b) as [Hab|Hab]; try done.
    - apply ln_lt_inv in Hln; [|done..]. apply Qreals.Qle_Rle in Hab. lra.
    - destruct Hln. apply ln_increasing; [done|]. by apply Qreals.Qlt_Rlt. }
  unfold compare_posteriors. simpl. by rewrite !Hlt.
Qed.

Lemma classify_log_positive (m : Model Q) (message : str) :
  positive_model m → classify_log (map_model Q2R m) message = classify m message.
Proof.
  intros Hm. unfold classify_log, classify, log_posteriors, posteriors.
  destruct Hm as (Hs & Hh & Htables).
  destruct (foldl_add_logs m (p_spam m) (p_ham m) (tokenize message))
    as (s' & h' & -> & Hs' & Hh' & Hlogs); [done..|].
  simpl p_spam. simpl p_ham. rewrite Hlogs. by apply compare_posteriors_ln.
Qed.

Lemma prior_pos l (cln : list (label * list str)) :
  messages_of l cln ≠ [] → (0 < prior (A := Q) l cln)%Q.
Proof.
  intros Hl. unfold prior. simpl.
  assert (0 < length (messages_of l cln)) as Hlen
    by (destruct (messages_of l cln); [done|simpl; lia]).
  assert (0 < length cln) as Hcln.
  { destruct cln; [done|simpl; lia]. }
  apply Qlt_shift_div_l; [unfold Qlt; simpl; lia|].
  rewrite Qmult_0_l. unfold Qlt. simpl. lia.
Qed.

Lemma train_positive (alpha : Q) msgs_train (m : Model Q) :
  train alpha msgs_train = Ok m → (0 < alpha)%Q → positive_model m.
Proof.
  intros Htrain Halpha.
  pose proof (train_cases alpha msgs_train) as Hcases. rewrite Htrain in Hcases.
  destruct Hcases as (Hspam & Hham & Hps & Hph & Hts & Hth).
  unfold positive_model. rewrite Hps, Hph.
  split_and!; [by apply prior_pos..| |].
  - intros word p. rewrite (Hts word). case_decide as Hword; [|done].
    intros [= <-]. apply conditional_probability_pos; [done|].
    destruct (vocabulary _); [by apply elem_of_nil in Hword|simpl; lia].
  - intros word p. rewrite (Hth word). case_decide as Hword; [|done].
    intros [= <-]. apply conditional_probability_pos; [done|].
    destruct (vocabulary _); [by apply elem_of_nil in Hword|simpl; lia].
Qed.

(** C3, amended: in exact arithmetic, on a model trained with a smoothing
    constant above zero, the decision of [classify], which compares the
    direct products, is the decision that compares the sums of the
    logarithms of the prior and of the likelihoods of the recognized
    words. *)
Theorem classify_agrees_with_log_space (alpha : Q) (msgs_train : list (label * str))
    (m : Model Q) (message : str) :
  train alpha msgs_train = Ok m →
  (0 < alpha)%Q →
  classify m message = classify_log (map_model Q2R m) message.
Proof.
  intros Htrain Halpha. symmetry. apply classify_log_positive.
  by apply (train_positive alpha msgs_train).
Qed.

End log_space_properties.

(** ** The program on examples *)

Example tokenize_example :
  tokenize (text "Ok lar... Joking wif u oni...")
  = [text "ok"; text "lar"; text "joking"; text "wif"; text "u"; text "oni"].
Proof. reflexivity. Qed.

Example tokenize_underscore_digits :
  tokenize (text "WINNER!! code: C_3421.") = [text "winner"; text "code"; text "c_3421"].
Proof. reflexivity. Qed.

Example train_corpus_head_classifies :
  (m ← train 1%Q corpus_head; Ok (classify m (text "FREE entry, win a cup!")))
  = Ok (classified_as spam).
Proof. vm_compute. reflexivity. Qed.

Lemma train_corpus_two : train 1%Q corpus_two = Ok model_two.
Proof. vm_compute. reflexivity. Qed.

Lemma train_corpus_two_alpha_zero :
  train (of_int 0) corpus_two = Ok model_two_alpha_zero.
Proof. vm_compute. reflexivity. Qed.

Lemma train_corpus_dyadic : train (of_int 1) corpus_dyadic = Ok model_dyadic.
Proof. vm_compute. reflexivity. Qed.

Lemma vocabulary_corpus_two word :
  word = text "a" ∨ word = text "b" ↔ word ∈ vocabulary (msgs_train_cln corpus_two).
Proof.
  change (vocabulary (msgs_train_cln corpus_two)) with [text "b"; text "a"].
  rewrite !elem_of_cons, elem_of_nil. tauto.
Qed.

Lemma model_dyadic_positive : positive_model (map_model float_value model_dyadic).
Proof.
  split_and!; [reflexivity..| |];
    apply map_Forall_to_list; vm_compute; repeat constructor.
Qed.

(** The witness of C5, on ASCII text: three runs of non-word characters,
    a message of blanks, and the cleaning of [corpus_head]. *)
Lemma tokenize_meets_spec_witness :
  tokenize (text "Ok lar...  Joking!") = tokenize_spec (text "Ok lar...  Joking!")
  ∧ tokenize_spec (text "Ok lar...  Joking!") = [text "ok"; text "lar"; text "joking"]
  ∧ tokenize (text "   ") = []
  ∧ msgs_train_cln corpus_head
    = [(ham, tokenize_spec (text "Go until jurong point, crazy.. Available only"));
       (ham, tokenize_spec (text "Ok lar... Joking wif u oni..."));
       (spam, tokenize_spec (text "Free entry in 2 a wkly comp to win FA Cup"))].
Proof.
  split_and!.
  - apply (tokenize_meets_spec (text "Ok lar...  Joking!") []).
  - reflexivity.
  - apply (tokenize_meets_spec (text "   ") []). by repeat constructor.
  - apply (tokenize_meets_spec [] corpus_head).
Defined.

(** The witness of C9: the spam message of [corpus_head] has 11 words. *)
Lemma word_counts_sum_to_total_witness :
  ∃ df counts,
    final_training (msgs_train_cln corpus_head) = Ok df
    ∧ column_sums (rows_labelled spam df) (vocabulary (msgs_train_cln corpus_head)) = Ok counts
    ∧ sum counts = 11%Z.
Proof.
  destruct (word_counts_sum_to_total corpus_head spam)
    as (df & counts & Hdf & Hcounts & _ & Hsum & Htotal).
  exists df, counts. split_and!; [done..|]. by rewrite Hsum, Htotal.
Defined.

(** The witness of C1, in the floats of the notebook: trained on
    [corpus_tie], the message "c" has the spam score 0.75 * 0.2, which
    rounds to 0.15000000000000002, above its ham score 0.25 * 0.6, which
    rounds to 0.15. *)
Lemma classify_compares_scores_witness :
  ∃ m : Model float,
    train (of_int 1) corpus_tie = Ok m
    ∧ classify m (text "c") = classified_as spam.
Proof.
  eexists. split; [vm_compute; reflexivity|].
  refine (proj1 (proj2 (classify_compares_scores (of_int 1) corpus_tie _ (text "c") _)) _);
    vm_compute; reflexivity.
Defined.

(** On the same input exact arithmetic gives the two scores 3/20 and the
    answer [unclassified]. *)
Example classify_corpus_tie_exact :
  (m ← train 1%Q corpus_tie; Ok (posteriors m (tokenize (text "c")), classify m (text "c")))
  = Ok ((3 # 20, 3 # 20), unclassified).
Proof. vm_compute. reflexivity. Qed.

(** The witness of C2: the word "a", once in ham and never in spam, with
    one word per category and a vocabulary of two. *)
Lemma conditional_probability_formula_witness :
  p_given_spam model_two !! text "a"
  = Some ((of_int 0 + 1%Q) / (of_int 1 + 1%Q * of_int 2))%num
  ∧ p_given_ham model_two !! text "a"
    = Some ((of_int 1 + 1%Q) / (of_int 1 + 1%Q * of_int 2))%num.
Proof.
  apply (conditional_probability_formula 1%Q corpus_two model_two (text "a") train_corpus_two).
  apply vocabulary_corpus_two. by left.
Defined.

(** The witness of C3. *)
Lemma classify_agrees_with_log_space_witness :
  classify model_two (text "a b a") = classify_log (map_model Q2R model_two) (text "a b a").
Proof.
  apply (classify_agrees_with_log_space 1%Q corpus_two model_two (text "a b a") train_corpus_two).
  reflexivity.
Defined.

(** The counterexample of C3: in the floats of the notebook both products
    of a message of 600 words "a" underflow to zero and [classify] answers
    [unclassified], while the sums of logarithms over the same model order
    the message as ham. *)
Lemma classify_underflows :
  train (of_int 1) corpus_dyadic = Ok model_dyadic
  ∧ posteriors model_dyadic (tokenize message_long) = (0%float, 0%float)
  ∧ classify model_dyadic message_long = unclassified
  ∧ classify_log (real_model model_dyadic) message_long = classified_as ham.
Proof.
  split_and!.
  - exact train_corpus_dyadic.
  - vm_compute. reflexivity.
  - vm_compute. reflexivity.
  - unfold real_model. rewrite classify_log_positive by apply model_dyadic_positive.
    vm_compute. reflexivity.
Qed.

(** The witness of C4: the three failures and a success with a negative
    smoothing constant. *)
Lemma train_fails_without_category_witness :
  train 1%Q [] = Raise (KeyError_label spam)
  ∧ train 1%Q [(ham, text "a")] = Raise (KeyError_label spam)
  ∧ train 1%Q [(spam, text "a")] = Raise (KeyError_label ham)
  ∧ ∃ m, train (-1)%Q corpus_two = Ok m.
Proof.
  split_and!.
  - by apply (proj1 (train_fails_without_category 1%Q [])).
  - apply (proj1 (proj2 (train_fails_without_category 1%Q [(ham, text "a")]))).
    by intros [[=]|[]%elem_of_nil]%elem_of_cons.
  - apply (proj1 (proj2 (proj2 (train_fails_without_category 1%Q [(spam, text "a")])))).
    + apply list_elem_of_here.
    + by intros [[=]|[]%elem_of_nil]%elem_of_cons.
  - apply (proj2 (proj2 (proj2 (train_fails_without_category (-1)%Q corpus_two)))).
    + apply list_elem_of_further, list_elem_of_here.
    + apply list_elem_of_here.
Defined.

(** The counterexample of C4: with the smoothing constant 0 training
    raises nothing and returns a model, whose tables hold zeros. *)
Lemma train_accepts_alpha_zero :
  train (of_int 0) corpus_two = Ok model_two_alpha_zero
  ∧ p_given_spam model_two_alpha_zero !! text "a" = Some 0%float.
Proof. split; [exact train_corpus_two_alpha_zero|reflexivity]. Qed.



(** The witness of C7, in the floats of the notebook: one word outside
    the vocabulary of [corpus_dyadic], whose priors are both 0.5. *)
Lemma unknown_words_are_skipped_witness :
  posteriors model_dyadic (tokenize (text "xyzzyqqq"))
  = (p_spam model_dyadic, p_ham model_dyadic)
  ∧ classify model_dyadic (text "xyzzyqqq") = unclassified.
Proof.
  destruct (unknown_words_are_skipped (of_int 1) corpus_dyadic model_dyadic
              (text "xyzzyqqq") train_corpus_dyadic) as [_ Hword].
  destruct (Hword (text "xyzzyqqq")) as (Hpriors & _ & Htie & _).
  - reflexivity.
  - change (vocabulary (msgs_train_cln corpus_dyadic))
      with [text "d"; text "c"; text "b"; text "a"].
    intros Hin. repeat (apply elem_of_cons in Hin as [[=]|Hin]).
    by apply elem_of_nil in Hin.
  - split; [exact Hpriors|]. by apply Htie.
Defined.

(** The witness of C8: one message of each category out of two. *)
Lemma prior_formula_witness :
  p_spam model_two = (of_int 1 / of_int 2 : Q)%num
  ∧ p_ham model_two = (of_int 1 / of_int 2 : Q)%num.
Proof. apply (prior_formula 1%Q corpus_two model_two train_corpus_two). Defined.


(** ** Further properties of the notebook *)

(** *** Train/test split *)

Lemma split_index_checked :
  forallb (λ len, (split_index len =? (4 * Z.of_nat len + 2) / 5)%Z)
    (seq 0 (Z.to_nat 10001)) = true.
Proof. vm_compute. reflexivity. Qed.

Lemma split_index_small (len : nat) :
  (Z.of_nat len ≤ 10000)%Z → split_index len = ((4 * Z.of_nat len + 2) / 5)%Z.
Proof.
  intros Hlen. pose proof split_index_checked as Hall.
  rewrite forallb_forall in Hall. apply Z.eqb_eq, Hall, in_seq. lia.
Qed.

(** X1: the training and the test set are the shuffled corpus cut in two,
    in order; for a corpus of at most 10000 messages the float computation
    [round(len * 0.8)] puts [(4 * len + 2) / 5] messages, the nearest integer
    to [0.8 * len], in the training set and the others in the test set. *)
Theorem train_test_split {X} (msgs_random : list X) :
  (Z.of_nat (length msgs_random) ≤ 10000)%Z →
  msgs_train msgs_random ++ msgs_test msgs_random = msgs_random
  ∧ Z.of_nat (length (msgs_train msgs_random))
    = ((4 * Z.of_nat (length msgs_random) + 2) / 5)%Z
  ∧ length (msgs_train msgs_random) + length (msgs_test msgs_random)
    = length msgs_random.
Proof.
  intros Hlen. unfold msgs_train, msgs_test.
  rewrite take_drop, length_take, length_drop, split_index_small by done.
  pose proof (Z.mul_div_le (4 * Z.of_nat (length msgs_random) + 2) 5) as Hle.
  pose proof (Z.mul_succ_div_gt (4 * Z.of_nat (length msgs_random) + 2) 5) as Hgt.
  destruct ((4 * Z.of_nat (length msgs_random) + 2) / 5)%Z as [|q|q] eqn:Hq;
    split_and!; try done; lia.
Qed.

(** *** The tokenizer on a message in two parts *)

Section tokenizer_composition.
Context `{UnicodeData}.

Lemma emit_app cur rest : emit cur rest = emit cur [] ++ rest.
Proof. by destruct cur. Qed.

Lemma split_from_separator cur x y :
  split_from cur (x ++ space :: y) = split_from cur x ++ split y.
Proof.
  revert cur. induction x as [|c x IH]; intros cur.
  - simpl app. rewrite split_from_space. simpl. apply emit_app.
  - simpl. destruct (is_space c); [|apply IH].
    by rewrite IH, (emit_app _ (_ ++ _)), (emit_app _ (split_from _ _)), app_assoc.
Qed.

(** X2: a non-word character separates tokens: the tokens of a message
    cut at a non-word character are the tokens of the part before it
    followed by the tokens of the part after it. *)
Theorem tokenize_separator (before after : str) (c : codepoint) :
  is_word c = false →
  tokenize (before ++ c :: after) = tokenize before ++ tokenize after.
Proof.
  intros Hc. unfold tokenize, split, re_sub_W, lower.
  rewrite fmap_app, fmap_cons, Hc, bind_app, bind_cons, lower_cp_space.
  apply split_from_separator.
Qed.

End tokenizer_composition.

(** *** The count table *)

(** X3: the population of [word_counts_per_sms] raises nothing; the table
    has one list per word that occurs in some message and no other key;
    every list has one slot per message, and slot [index] of the list of
    [word] holds the number of occurrences of [word] in message [index]. *)
Theorem word_counts_per_sms_counts (cln : list (label * list str)) :
  ∃ counts,
    word_counts_per_sms cln = Ok counts
    ∧ (∀ word, is_Some (counts !! word) ↔ ∃ sms, sms ∈ cln.*2 ∧ word ∈ sms)
    ∧ ∀ word column, counts !! word = Some column →
        length column = length cln
        ∧ ∀ index sms, cln.*2 !! index = Some sms →
            column !! index = Some (occurrences word sms).
Proof.
  destruct (word_counts_per_sms_tabulated cln) as (counts & Hrun & Hcounts).
  exists counts. split_and!; [done| |].
  - intros word. rewrite (Hcounts word), <-elem_of_vocabulary.
    case_decide; [by split; eauto|]. split; [by intros [? ?]|done].
  - intros word column. rewrite (Hcounts word). case_decide; [|done].
    intros [= <-]. rewrite !length_fmap. split; [done|].
    intros index sms Hsms. by rewrite list_lookup_fmap, Hsms.
Qed.

(** *** The order of the training messages *)

Section order_of_training.
Context `{UnicodeData}.

Lemma sum_Permutation (xs ys : list Z) : xs ≡ₚ ys → sum xs = sum ys.
Proof. unfold sum. induction 1; simpl; lia. Qed.

Lemma vocabulary_Permutation (cln cln' : list (label * list str)) :
  cln' ≡ₚ cln → vocabulary cln' = vocabulary cln.
Proof.
  intros Hperm. unfold vocabulary. f_equal. apply set_eq. intros word.
  rewrite !elem_of_list_to_set, !elem_of_concat.
  by setoid_rewrite Hperm.
Qed.

Lemma messages_of_Permutation l (cln cln' : list (label * list str)) :
  cln' ≡ₚ cln → messages_of l cln' ≡ₚ messages_of l cln.
Proof. intros Hperm. unfold messages_of. by rewrite Hperm. Qed.

Lemma word_counts_Permutation l (cln cln' : list (label * list str)) word :
  cln' ≡ₚ cln → word_counts l cln' word = word_counts l cln word.
Proof.
  intros Hperm. unfold word_counts. rewrite <-!sum_occurrences.
  apply sum_Permutation. by rewrite (messages_of_Permutation l cln cln').
Qed.

Lemma total_word_count_Permutation l (cln cln' : list (label * list str)) :
  cln' ≡ₚ cln → total_word_count l cln' = total_word_count l cln.
Proof.
  intros Hperm. unfold total_word_count.
  apply sum_Permutation. by rewrite (messages_of_Permutation l cln cln').
Qed.

Lemma prior_Permutation `{Number A} l (cln cln' : list (label * list str)) :
  cln' ≡ₚ cln → prior (A := A) l cln' = prior l cln.
Proof.
  intros Hperm. unfold prior.
  by rewrite (messages_of_Permutation l cln cln'), Hperm.
Qed.

Lemma conditional_probability_Permutation `{Number A} (alpha : A) size_V l
    (cln cln' : list (label * list str)) word :
  cln' ≡ₚ cln →
  conditional_probability alpha size_V l cln' word
  = conditional_probability alpha size_V l cln word.
Proof.
  intros Hperm. unfold conditional_probability.
  by rewrite (word_counts_Permutation l cln cln'),
    (total_word_count_Permutation l cln cln').
Qed.

Lemma messages_of_nil_Permutation l (cln cln' : list (label * list str)) :
  cln' ≡ₚ cln → messages_of l cln' = [] ↔ messages_of l cln = [].
Proof.
  intros Hperm%(messages_of_Permutation l).
  split; intros Hnil; rewrite Hnil in Hperm.
  - symmetry in Hperm. by apply Permutation_nil_r in Hperm.
  - by apply Permutation_nil_r in Hperm.
Qed.

Lemma tabulates_eq {X} (V : list str) (t t' : gmap str X) (f f' : str → X) :
  (∀ word, f' word = f word) → tabulates V t f → tabulates V t' f' → t' = t.
Proof.
  intros Hf Ht Ht'. apply map_eq. intros word.
  rewrite (Ht word), (Ht' word). case_decide; by rewrite ?Hf.
Qed.

(** X4: the result of training does not depend on the order of the
    training messages: on a permutation of the training set the training
    cells raise the same exception or build the same priors and the same two
    tables. *)
Theorem train_Permutation `{Number A} (alpha : A) (msgs_train msgs_train' : list (label * str)) :
  msgs_train' ≡ₚ msgs_train →
  train alpha msgs_train' = train alpha msgs_train.
Proof.
  intros Hperm.
  assert (msgs_train_cln msgs_train' ≡ₚ msgs_train_cln msgs_train) as Hcln
    by (unfold msgs_train_cln; by rewrite Hperm).
  pose proof (train_cases alpha msgs_train) as Hcases.
  pose proof (train_cases alpha msgs_train') as Hcases'.
  simpl in Hcases, Hcases'.
  rewrite (vocabulary_Permutation _ _ Hcln) in Hcases'.
  pose proof (messages_of_nil_Permutation spam _ _ Hcln) as Hspam.
  pose proof (messages_of_nil_Permutation ham _ _ Hcln) as Hham.
  destruct (train alpha msgs_train') as [m'|e'], (train alpha msgs_train) as [m|e].
  - destruct Hcases as (_ & _ & Hps & Hph & Hts & Hth).
    destruct Hcases' as (_ & _ & Hps' & Hph' & Hts' & Hth').
    destruct m, m'. simpl in *. do 2 f_equal.
    + by rewrite Hps, Hps', (prior_Permutation spam _ _ Hcln).
    + by rewrite Hph, Hph', (prior_Permutation ham _ _ Hcln).
    + eapply tabulates_eq, Hts'; [|exact Hts]. intros word.
      by apply conditional_probability_Permutation.
    + eapply tabulates_eq, Hth'; [|exact Hth]. intros word.
      by apply conditional_probability_Permutation.
  - destruct Hcases' as (Hs' & Hh' & _). exfalso.
    case_decide as Hs; [by apply Hs', Hspam|].
    destruct Hcases as [Hh _]. by apply Hh', Hham.
  - destruct Hcases as (Hs & Hh & _). exfalso.
    case_decide as Hs'; [by apply Hs, Hspam|].
    destruct Hcases' as [Hh' _]. by apply Hh, Hham.
  - f_equal. case_decide as Hs'.
    + subst e'. rewrite decide_True in Hcases by by apply Hspam. done.
    + destruct Hcases' as [_ ->].
      rewrite decide_False in Hcases by by rewrite <-Hspam.
      by destruct Hcases as [_ ->].
Qed.

End order_of_training.

(** *** Priors and likelihoods as distributions, in exact arithmetic *)

Section distributions.
Context `{UnicodeData}.

Lemma length_messages_of_sum (cln : list (label * list str)) :
  length (messages_of spam cln) + length (messages_of ham cln) = length cln.
Proof.
  rewrite !length_messages_of.
  induction cln as [|[[] sms] cln IH]; [done|..];
    rewrite fmap_cons, !filter_cons; simpl;
    rewrite ?decide_True, ?decide_False by done; simpl; lia.
Qed.

Lemma Qdiv_same (q : Q) : (0 < q)%Q → (q / q == 1)%Q.
Proof. intros Hq. apply Qmult_inv_r. intros Hq0. rewrite Hq0 in Hq. by apply Qlt_irrefl in Hq. Qed.

Lemma inject_Z_pos (n : Z) : (0 < n)%Z → (0 < inject_Z n)%Q.
Proof. intros Hn. unfold Qlt. simpl. lia. Qed.

(** X5: the two priors of a trained model lie strictly between 0 and 1
    and sum to 1. *)
Theorem priors_sum_to_one (alpha : Q) (msgs_train : list (label * str)) (m : Model Q) :
  train alpha msgs_train = Ok m →
  (0 < p_spam m)%Q ∧ (p_spam m < 1)%Q ∧ (0 < p_ham m)%Q ∧ (p_ham m < 1)%Q
  ∧ (p_spam m + p_ham m == 1)%Q.
Proof.
  intros Htrain.
  pose proof (train_cases alpha msgs_train) as Hcases. rewrite Htrain in Hcases.
  destruct Hcases as (Hspam & Hham & -> & -> & _).
  pose proof (length_messages_of_sum (msgs_train_cln msgs_train)) as Hsum.
  unfold prior. simpl.
  set (s := length (messages_of spam (msgs_train_cln msgs_train))) in *.
  set (h := length (messages_of ham (msgs_train_cln msgs_train))) in *.
  set (n := length (msgs_train_cln msgs_train)) in *.
  assert (0 < s) as Hs.
  { subst s. destruct (messages_of spam _); [done|simpl; lia]. }
  assert (0 < h) as Hh.
  { subst h. destruct (messages_of ham _); [done|simpl; lia]. }
  assert (0 < inject_Z (Z.of_nat n))%Q as Hn by (apply inject_Z_pos; lia).
  split_and!.
  - apply Qlt_shift_div_l; [done|]. rewrite Qmult_0_l. apply inject_Z_pos. lia.
  - apply Qlt_shift_div_r; [done|]. rewrite Qmult_1_l, <-Zlt_Qlt. lia.
  - apply Qlt_shift_div_l; [done|]. rewrite Qmult_0_l. apply inject_Z_pos. lia.
  - apply Qlt_shift_div_r; [done|]. rewrite Qmult_1_l, <-Zlt_Qlt. lia.
  - unfold Qdiv. rewrite <-Qmult_plus_distr_l, <-inject_Z_plus.
    replace (Z.of_nat s + Z.of_nat h)%Z with (Z.of_nat n) by lia.
    by apply Qdiv_same.
Qed.

(** The sum of a list of rationals. *)
Lemma counter_foldr (items : list (str * Q)) (acc : Q) :
  (foldl (λ counter '(k, v), counter + v)%num acc items
   == acc + foldr Qplus 0 items.*2)%Q.
Proof.
  revert acc. induction items as [|[k v] items IH]; intros acc; simpl.
  - by rewrite Qplus_0_r.
  - rewrite IH. simpl. by rewrite Qplus_assoc.
Qed.

Lemma foldr_Qplus_Permutation (xs ys : list Q) :
  xs ≡ₚ ys → (foldr Qplus 0 xs == foldr Qplus 0 ys)%Q.
Proof.
  induction 1 as [|x xs ys _ IH|x y xs|xs ys zs _ IH1 _ IH2]; simpl.
  - reflexivity.
  - by rewrite IH.
  - rewrite !Qplus_assoc, (Qplus_comm y x). reflexivity.
  - by rewrite IH1.
Qed.

Lemma list_to_map_tabulates {X} (V : list str) (f : str → X) :
  tabulates V (list_to_map ((λ word, (word, f word)) <$> V) : gmap str X) f.
Proof.
  intros word. case_decide as Hword.
  - revert Hword. induction V as [|w V IH]; intros Hword; [by apply elem_of_nil in Hword|].
    rewrite fmap_cons. simpl.
    destruct (decide (w = word)) as [->|Hne]; [by rewrite lookup_insert_eq|].
    rewrite lookup_insert_ne by done. apply IH.
    by apply elem_of_cons in Hword as [|].
  - apply not_elem_of_list_to_map. rewrite <-list_fmap_compose.
    by intros (w & -> & Hw)%list_elem_of_fmap.
Qed.

Lemma tabulates_to_list {X} (V : list str) (table : gmap str X) (f : str → X) :
  NoDup V → tabulates V table f → map_to_list table ≡ₚ (λ word, (word, f word)) <$> V.
Proof.
  intros Hnd Htable.
  rewrite (tabulates_eq V _ table f f (λ _, eq_refl) (list_to_map_tabulates V f) Htable).
  apply map_to_list_to_map. rewrite <-list_fmap_compose.
  assert ((fst ∘ (λ word, (word, f word))) <$> V = V) as ->; [|done].
  clear. induction V as [|w V IH]; [done|]. by rewrite fmap_cons, IH.
Qed.

Lemma sum_conditional_probability (alpha : Q) (size_V : nat) l cln (V : list str) :
  (foldr Qplus 0 (conditional_probability alpha size_V l cln <$> V)
   == (inject_Z (sum (word_counts l cln <$> V)) + alpha * inject_Z (Z.of_nat (length V)))
      / (inject_Z (total_word_count l cln) + alpha * inject_Z (Z.of_nat size_V)))%Q.
Proof.
  induction V as [|w V IH].
  - simpl. unfold Qdiv. by rewrite Qmult_0_r, Qplus_0_l, Qmult_0_l.
  - rewrite !fmap_cons. simpl foldr. rewrite IH. clear IH.
    change (sum (?a :: ?xs)) with (a + sum xs)%Z.
    unfold conditional_probability. simpl num_div. simpl num_add. simpl num_mul.
    simpl of_int. simpl length.
    rewrite Nat2Z.inj_succ, <-Z.add_1_l, !inject_Z_plus.
    unfold Qdiv. rewrite <-Qmult_plus_distr_l. apply Qmult_comp; [|reflexivity].
    change (inject_Z 1) with 1%Q. ring.
Qed.

(** X6: the check of the notebook that the likelihoods sum to 1 holds
    exactly in exact arithmetic: for a model trained with a smoothing
    constant above zero on a training set with at least one word, the
    counter over the items of each table, in whatever order the dictionary
    yields them, is 1. *)
Theorem likelihoods_sum_to_one (alpha : Q) (msgs_train : list (label * str)) (m : Model Q)
    (items_spam items_ham : list (str * Q)) :
  train alpha msgs_train = Ok m →
  (0 < alpha)%Q →
  vocabulary (msgs_train_cln msgs_train) ≠ [] →
  items_spam ≡ₚ map_to_list (p_given_spam m) →
  items_ham ≡ₚ map_to_list (p_given_ham m) →
  (counter items_spam == 1)%Q ∧ (counter items_ham == 1)%Q.
Proof.
  intros Htrain Halpha HV Hitems_spam Hitems_ham.
  pose proof (train_cases alpha msgs_train) as Hcases. rewrite Htrain in Hcases.
  destruct Hcases as (_ & _ & _ & _ & Hspam & Hham).
  set (cln := msgs_train_cln msgs_train) in *.
  assert (∀ l table items,
    tabulates (vocabulary cln) table
      (conditional_probability alpha (length (vocabulary cln)) l cln) →
    items ≡ₚ map_to_list table → (counter items == 1)%Q) as Hone.
  { intros l table items Htable Hitems. unfold counter.
    rewrite counter_foldr. simpl of_int. rewrite Qplus_0_l.
    rewrite (foldr_Qplus_Permutation items.*2
               (conditional_probability alpha (length (vocabulary cln)) l cln
                  <$> vocabulary cln)).
    - rewrite sum_conditional_probability, sum_word_counts.
      apply Qdiv_same.
      apply Qlt_le_trans
        with (0 + alpha * inject_Z (Z.of_nat (length (vocabulary cln))))%Q.
      + rewrite Qplus_0_l. apply Qmult_lt_0_compat; [done|].
        apply inject_Z_pos. destruct (vocabulary cln); [done|simpl; lia].
      + apply Qplus_le_l, inject_Z_nonneg, total_word_count_nonneg.
    - rewrite Hitems, (tabulates_to_list _ _ _ (NoDup_vocabulary cln) Htable).
      by rewrite <-list_fmap_compose. }
  split; [by apply (Hone spam (p_given_spam m))|by apply (Hone ham (p_given_ham m))].
Qed.

End distributions.

(** *** The message as a bag of words, in exact arithmetic *)

Section bag_of_words.
Context `{UnicodeData}.

Lemma multiply_Qeq (m : Model Q) (s h s' h' : Q) word :
  (s == s')%Q → (h == h')%Q →
  ((multiply m (s, h) word).1 == (multiply m (s', h') word).1)%Q
  ∧ ((multiply m (s, h) word).2 == (multiply m (s', h') word).2)%Q.
Proof.
  intros Hs Hh. unfold multiply. simpl.
  destruct (p_given_spam m !! word), (p_given_ham m !! word); simpl;
    by rewrite ?Hs, ?Hh.
Qed.

Lemma foldl_multiply_Qeq (m : Model Q) (s h s' h' : Q) (message : list str) :
  (s == s')%Q → (h == h')%Q →
  ((foldl (multiply m) (s, h) message).1 == (foldl (multiply m) (s', h') message).1)%Q
  ∧ ((foldl (multiply m) (s, h) message).2 == (foldl (multiply m) (s', h') message).2)%Q.
Proof.
  revert s h s' h'. induction message as [|word message IH]; intros s h s' h' Hs Hh;
    [done|].
  cbn [foldl]. destruct (multiply_Qeq m s h s' h' word Hs Hh) as [Hs1 Hh1].
  destruct (multiply m (s, h) word), (multiply m (s', h') word). by apply IH.
Qed.

Lemma multiply_comm (m : Model Q) (s h : Q) x y :
  ((multiply m (multiply m (s, h) x) y).1 == (multiply m (multiply m (s, h) y) x).1)%Q
  ∧ ((multiply m (multiply m (s, h) x) y).2 == (multiply m (multiply m (s, h) y) x).2)%Q.
Proof.
  unfold multiply. simpl.
  destruct (p_given_spam m !! x), (p_given_spam m !! y),
    (p_given_ham m !! x), (p_given_ham m !! y); simpl; split; ring.
Qed.

Lemma foldl_multiply_Permutation (m : Model Q) (message message' : list str) :
  message ≡ₚ message' →
  ∀ s h,
    ((foldl (multiply m) (s, h) message).1 == (foldl (multiply m) (s, h) message').1)%Q
    ∧ ((foldl (multiply m) (s, h) message).2 == (foldl (multiply m) (s, h) message').2)%Q.
Proof.
  induction 1 as [|x xs ys _ IH|x y xs|xs ys zs _ IH1 _ IH2]; intros s h.
  - done.
  - cbn [foldl]. destruct (multiply m (s, h) x). apply IH.
  - cbn [foldl]. destruct (multiply_comm m s h y x) as [Hs Hh].
    destruct (multiply m (multiply m (s, h) y) x), (multiply m (multiply m (s, h) x) y).
    by apply foldl_multiply_Qeq.
  - destruct (IH1 s h) as [Hs1 Hh1], (IH2 s h) as [Hs2 Hh2].
    split; by etransitivity.
Qed.

Lemma compare_posteriors_Qeq (s h s' h' : Q) :
  (s == s')%Q → (h == h')%Q → compare_posteriors s h = compare_posteriors s' h'.
Proof.
  intros Hs Hh.
  assert (∀ a b a' b' : Q, (a == a')%Q → (b == b')%Q →
            (if Qlt_le_dec a b then true else false)
            = (if Qlt_le_dec a' b' then true else false)) as Hlt.
  { intros a b a' b' Ha Hb.
    destruct (Qlt_le_dec a b) as [Hab|Hab], (Qlt_le_dec a' b') as [Hab'|Hab'];
      try done; rewrite Ha, Hb in Hab; by apply Qle_not_lt in Hab. }
  unfold compare_posteriors. simpl.
  by rewrite (Hlt s h s' h'), (Hlt h s h' s').
Qed.

(** X7: in exact arithmetic the answer of [classify] depends on the
    message only through its bag of words: two messages whose token
    sequences are permutations of each other get the same answer, on every
    model. *)
Theorem classify_bag_of_words (m : Model Q) (message message' : str) :
  tokenize message ≡ₚ tokenize message' →
  classify m message = classify m message'.
Proof.
  intros Hperm. unfold classify, posteriors.
  destruct (foldl_multiply_Permutation m _ _ Hperm (p_spam m) (p_ham m)) as [Hs Hh].
  destruct (foldl (multiply m) _ (tokenize message)),
    (foldl (multiply m) _ (tokenize message')).
  by apply compare_posteriors_Qeq.
Qed.

(** *** Evidence that points one way *)

Lemma foldl_Qmult_le (fa fb : str → Q) (a b : Q) (ws : list str) :
  (0 < a)%Q → (a <= b)%Q →
  Forall (λ w, (0 < fa w)%Q ∧ (fa w <= fb w)%Q) ws →
  (0 < foldl Qmult a (fa <$> ws))%Q
  ∧ (foldl Qmult a (fa <$> ws) <= foldl Qmult b (fb <$> ws))%Q.
Proof.
  intros Ha Hab Hws. revert a b Ha Hab.
  induction Hws as [|w ws [Hw Hle] _ IH]; intros a b Ha Hab; [done|].
  rewrite !fmap_cons. cbn [foldl]. apply IH.
  - by apply Qmult_lt_0_compat.
  - apply Qmult_le_compat_nonneg; split; auto using Qlt_le_weak.
Qed.

Lemma foldl_Qmult_lt (fa fb : str → Q) (a b : Q) (ws : list str) :
  (0 < a)%Q → (a < b)%Q →
  Forall (λ w, (0 < fa w)%Q ∧ (fa w <= fb w)%Q) ws →
  (foldl Qmult a (fa <$> ws) < foldl Qmult b (fb <$> ws))%Q.
Proof.
  intros Ha Hab Hws. revert a b Ha Hab.
  induction Hws as [|w ws [Hw Hle] _ IH]; intros a b Ha Hab; [done|].
  rewrite !fmap_cons. cbn [foldl]. apply IH.
  - by apply Qmult_lt_0_compat.
  - apply Qlt_le_trans with (b * fa w)%Q.
    + by apply Qmult_lt_compat_r.
    + rewrite !(Qmult_comm b). apply Qmult_le_compat_r; [done|].
      apply Qlt_le_weak. by transitivity a.
Qed.

Lemma foldl_Qmult_lt_word (fa fb : str → Q) (a b : Q) (ws : list str) :
  (0 < a)%Q → (a <= b)%Q →
  Forall (λ w, (0 < fa w)%Q ∧ (fa w <= fb w)%Q) ws →
  Exists (λ w, (fa w < fb w)%Q) ws →
  (foldl Qmult a (fa <$> ws) < foldl Qmult b (fb <$> ws))%Q.
Proof.
  intros Ha Hab Hws Hstrict. revert a b Ha Hab Hws.
  induction Hstrict as [w ws Hw|w ws _ IH]; intros a b Ha Hab Hws;
    apply Forall_cons in Hws as [[Hpos Hle] Hws]; rewrite !fmap_cons; cbn [foldl].
  - apply foldl_Qmult_lt; [by apply Qmult_lt_0_compat| |done].
    apply Qle_lt_trans with (b * fa w)%Q.
    + by apply Qmult_le_compat_r; [|apply Qlt_le_weak].
    + rewrite !(Qmult_comm b). apply Qmult_lt_compat_r; [|done].
      by apply Qlt_le_trans with a.
  - apply IH; [by apply Qmult_lt_0_compat| |done].
    apply Qmult_le_compat_nonneg; split; auto using Qlt_le_weak.
Qed.

End bag_of_words.

Section evidence.
Context `{UnicodeData}.

Lemma recognized_likelihoods (alpha : Q) (msgs_train : list (label * str))
    (m : Model Q) (words : list str)
    (table table' : gmap str Q) :
  let V := vocabulary (msgs_train_cln msgs_train) in
  train alpha msgs_train = Ok m → (0 < alpha)%Q →
  (table = p_given_spam m ∧ table' = p_given_ham m
   ∨ table = p_given_ham m ∧ table' = p_given_spam m) →
  Forall (λ word, word ∈ V) words →
  (∀ word a b, word ∈ words → table !! word = Some a → table' !! word = Some b →
     (a <= b)%Q) →
  Forall (λ word, (0 < default 0 (table !! word))%Q
                  ∧ (default 0 (table !! word) <= default 0 (table' !! word))%Q) words.
Proof.
  intros V Htrain Halpha Htables Hwords Hle.
  destruct (trained_tables alpha msgs_train m Htrain) as [_ Hknown].
  destruct (train_positive alpha msgs_train m Htrain Halpha) as (_ & _ & Hps & Hph).
  apply Forall_forall. intros word Hword.
  rewrite Forall_forall in Hwords.
  destruct (Hknown word (Hwords word Hword)) as [[s Hs] [h Hh]].
  destruct Htables as [[-> ->]|[-> ->]]; rewrite ?Hs, ?Hh; simpl; split; eauto.
Qed.

(** X8: in exact arithmetic, when the evidence points one way the answer
    follows it: on a model trained with a smoothing constant above zero, if
    the ham prior is at most the spam prior, every recognized word of the
    message is at most as likely in ham as in spam, and the prior or one
    recognized word is strictly so, [classify] answers spam; and the same
    with ham and spam exchanged. *)
Theorem classify_follows_evidence (alpha : Q) (msgs_train : list (label * str))
    (m : Model Q) (message : str) :
  let V := vocabulary (msgs_train_cln msgs_train) in
  let words := recognized V (tokenize message) in
  train alpha msgs_train = Ok m →
  (0 < alpha)%Q →
  ((p_ham m <= p_spam m)%Q →
   (∀ word h s, word ∈ words → p_given_ham m !! word = Some h →
      p_given_spam m !! word = Some s → (h <= s)%Q) →
   ((p_ham m < p_spam m)%Q
    ∨ Exists (λ word, (default 0 (p_given_ham m !! word)
                       < default 0 (p_given_spam m !! word))%Q) words) →
   classify m message = classified_as spam)
  ∧ ((p_spam m <= p_ham m)%Q →
     (∀ word s h, word ∈ words → p_given_spam m !! word = Some s →
        p_given_ham m !! word = Some h → (s <= h)%Q) →
     ((p_spam m < p_ham m)%Q
      ∨ Exists (λ word, (default 0 (p_given_spam m !! word)
                         < default 0 (p_given_ham m !! word))%Q) words) →
     classify m message = classified_as ham).
Proof.
  intros V words Htrain Halpha.
  destruct (train_positive alpha msgs_train m Htrain Halpha) as (Hs & Hh & _).
  assert (Forall (λ word, word ∈ V) words) as Hwords.
  { apply Forall_forall. by intros word [? ?]%list_elem_of_filter. }
  unfold classify. rewrite (posteriors_trained alpha msgs_train m _ Htrain).
  unfold score. fold V. fold words.
  split; intros Hprior Hle Hstrict.
  - apply compare_posteriors_Q.
    pose proof (recognized_likelihoods alpha msgs_train m words _ _ Htrain Halpha
                  (or_intror (conj eq_refl eq_refl)) Hwords Hle) as Hall.
    destruct Hstrict as [Hlt|Hword].
    + by apply foldl_Qmult_lt.
    + by apply foldl_Qmult_lt_word.
  - apply compare_posteriors_Q.
    pose proof (recognized_likelihoods alpha msgs_train m words _ _ Htrain Halpha
                  (or_introl (conj eq_refl eq_refl)) Hwords Hle) as Hall.
    destruct Hstrict as [Hlt|Hword].
    + by apply foldl_Qmult_lt.
    + by apply foldl_Qmult_lt_word.
Qed.

End evidence.

(** *** Evaluation *)

Section evaluation_properties.
Context `{UnicodeData}.

Lemma count_rows_cons {X} (mask : X → bool) (row : X) (rows : list X) :
  count_rows mask (row :: rows)
  = ((if mask row then 1 else 0) + count_rows mask rows)%Z.
Proof.
  unfold count_rows. rewrite filter_cons.
  destruct (mask row); [rewrite decide_True by done|rewrite decide_False by done];
    simpl length; lia.
Qed.

Lemma count_rows_nonneg {X} (mask : X → bool) (rows : list X) :
  (0 ≤ count_rows mask rows)%Z.
Proof. unfold count_rows. lia. Qed.

(** X9: the counts of the evaluation fit together, with [unclassified]
    counted as ham: true positives and false negatives add up to the test
    messages labelled spam, true positives and false positives to the
    messages [classify] answers spam for, and the rows counted as correct by
    [total_accuracy] are all rows but the false negatives and the false
    positives; so a ham message left [unclassified] counts as correct and a
    spam message left [unclassified] as a false negative. *)
Theorem evaluation_counts `{Number A} (m : Model A) (msgs_test : list (label * str)) :
  let rows := msgs_boolean m msgs_test in
  (true_pos rows + false_neg rows)%Z
  = Z.of_nat (length (filter (λ row, row.1 = spam) msgs_test))
  ∧ (true_pos rows + false_pos rows)%Z
    = Z.of_nat (length (filter (λ row, classify m row.2 = classified_as spam) msgs_test))
  ∧ count_rows (λ row, row.1 =? row.2)%Z rows
    = (Z.of_nat (length msgs_test) - false_neg rows - false_pos rows)%Z
  ∧ false_neg rows
    = Z.of_nat (length (filter (λ row, row.1 = spam ∧ classify m row.2 ≠ classified_as spam)
                          msgs_test)).
Proof.
  unfold true_pos, false_neg, false_pos, msgs_boolean.
  induction msgs_test as [|[l sms] msgs_test (IH1 & IH2 & IH3 & IH4)]; [done|].
  rewrite fmap_cons, !count_rows_cons, !filter_cons. simpl fst. simpl snd.
  cbv zeta in *.
  destruct l, (classify m sms) as [[]|] eqn:Hc; simpl in *;
    rewrite ?decide_True, ?decide_False by (intuition congruence);
    simpl length; split_and!; lia.
Qed.

(** X10: in exact arithmetic, when there is a true positive the three
    metrics are well defined: recall and precision lie in (0, 1] and
    [f1_score] is [2 TP / (2 TP + FP + FN)]. *)
Theorem f1_score_formula (rows : list (Z * Z)) :
  (0 < true_pos rows)%Z →
  (0 < tpr rows)%Q ∧ (tpr rows <= 1)%Q
  ∧ (0 < precision rows)%Q ∧ (precision rows <= 1)%Q
  ∧ (f1_score rows
     == inject_Z (2 * true_pos rows)
        / inject_Z (2 * true_pos rows + false_pos rows + false_neg rows))%Q.
Proof.
  intros Htp. unfold f1_score, tpr, precision. simpl.
  pose proof (count_rows_nonneg (λ row : Z * Z, (row.1 =? 1)%Z && (row.2 =? 0)%Z) rows) as Hfn.
  pose proof (count_rows_nonneg (λ row : Z * Z, (row.1 =? 0)%Z && (row.2 =? 1)%Z) rows) as Hfp.
  fold (false_neg rows) in Hfn. fold (false_pos rows) in Hfp.
  set (tp := true_pos rows) in *. set (fn := false_neg rows) in *.
  set (fp := false_pos rows) in *.
  assert (0 < inject_Z tp)%Q as Htp' by by apply inject_Z_pos.
  assert (0 < inject_Z (tp + fn))%Q as Hden1 by (apply inject_Z_pos; lia).
  assert (0 < inject_Z (tp + fp))%Q as Hden2 by (apply inject_Z_pos; lia).
  split_and!.
  - apply Qlt_shift_div_l; [done|]. by rewrite Qmult_0_l.
  - apply Qle_shift_div_r; [done|]. rewrite Qmult_1_l, <-Zle_Qle. lia.
  - apply Qlt_shift_div_l; [done|]. by rewrite Qmult_0_l.
  - apply Qle_shift_div_r; [done|]. rewrite Qmult_1_l, <-Zle_Qle. lia.
  - assert (0 < inject_Z (2 * tp + fp + fn))%Q as Hden3 by (apply inject_Z_pos; lia).
    rewrite !inject_Z_plus, !inject_Z_mult in *.
    change (inject_Z 2) with 2%Q in *.
    assert (0 < inject_Z tp * (inject_Z tp + inject_Z fp)
                + inject_Z tp * (inject_Z tp + inject_Z fn))%Q as Hden4.
    { apply Qlt_trans with (0 + inject_Z tp * (inject_Z tp + inject_Z fn))%Q.
      - rewrite Qplus_0_l. by apply Qmult_lt_0_compat.
      - apply Qplus_lt_l. by apply Qmult_lt_0_compat. }
    field. split_and!; intros Hzero.
    + rewrite Hzero in Hden3. by apply Qlt_irrefl in Hden3.
    + rewrite Hzero in Hden2. by apply Qlt_irrefl in Hden2.
    + rewrite Hzero in Hden1. by apply Qlt_irrefl in Hden1.
    + rewrite Hzero in Hden4. by apply Qlt_irrefl in Hden4.
Qed.

(** X11: on the floats of the notebook the metrics raise nothing on a
    degenerate test set and are NaN: the accuracy of an empty test set, the
    recall when no test message is labelled spam, the precision when
    [classify] answers spam for no test message. *)
Theorem metrics_nan (rows : list (Z * Z)) :
  (rows = [] → PrimFloat.is_nan (total_accuracy rows) = true)
  ∧ ((true_pos rows + false_neg rows = 0)%Z → PrimFloat.is_nan (tpr rows) = true)
  ∧ ((true_pos rows + false_pos rows = 0)%Z → PrimFloat.is_nan (precision rows) = true).
Proof.
  split_and!.
  - by intros ->.
  - intros Hzero. unfold tpr. rewrite Hzero.
    assert (true_pos rows = 0%Z) as ->; [|done].
    pose proof (count_rows_nonneg (λ row : Z * Z, (row.1 =? 1)%Z && (row.2 =? 0)%Z) rows).
    unfold true_pos, false_neg in *.
    pose proof (count_rows_nonneg (λ row : Z * Z, (row.1 =? 1)%Z && (row.2 =? 1)%Z) rows).
    lia.
  - intros Hzero. unfold precision. rewrite Hzero.
    assert (true_pos rows = 0%Z) as ->; [|done].
    pose proof (count_rows_nonneg (λ row : Z * Z, (row.1 =? 0)%Z && (row.2 =? 1)%Z) rows).
    unfold true_pos, false_pos in *.
    pose proof (count_rows_nonneg (λ row : Z * Z, (row.1 =? 1)%Z && (row.2 =? 1)%Z) rows).
    lia.
Qed.

End evaluation_properties.

(** ** The further properties on examples *)

(** The witness of X1: of three messages two go to the training set. *)
Lemma train_test_split_witness :
  msgs_train corpus_head ++ msgs_test corpus_head = corpus_head
  ∧ length (msgs_train corpus_head) = 2 ∧ length (msgs_test corpus_head) = 1.
Proof.
  destruct (train_test_split corpus_head) as (Hsplit & _ & _); [simpl; lia|].
  split; [exact Hsplit|]. split; reflexivity.
Defined.

(** The witness of X2: a comma between two words. *)
Lemma tokenize_separator_witness :
  tokenize (text "Ok" ++ 44%N :: text "lar") = [text "ok"; text "lar"].
Proof.
  rewrite (tokenize_separator (text "Ok") (text "lar") 44%N); reflexivity.
Defined.

(** The witness of X4: [corpus_two] with its two messages exchanged. *)
Lemma train_Permutation_witness :
  train 1%Q [(spam, text "b"); (ham, text "a")] = train 1%Q corpus_two.
Proof. apply (train_Permutation 1%Q corpus_two). apply perm_swap. Defined.

(** The witness of X5. *)
Lemma priors_sum_to_one_witness :
  (0 < p_spam model_two)%Q ∧ (p_spam model_two < 1)%Q
  ∧ (0 < p_ham model_two)%Q ∧ (p_ham model_two < 1)%Q
  ∧ (p_spam model_two + p_ham model_two == 1)%Q.
Proof. apply (priors_sum_to_one 1%Q corpus_two model_two train_corpus_two). Defined.

(** The witness of X6: 1/3 + 2/3 in each table. *)
Lemma likelihoods_sum_to_one_witness :
  (counter (map_to_list (p_given_spam model_two)) == 1)%Q
  ∧ (counter (map_to_list (p_given_ham model_two)) == 1)%Q.
Proof.
  apply (likelihoods_sum_to_one 1%Q corpus_two model_two _ _ train_corpus_two);
    [reflexivity|discriminate|reflexivity..].
Defined.

(** The witness of X7: the same two words in the other order. *)
Lemma classify_bag_of_words_witness :
  classify model_two (text "a b, b") = classify model_two (text "b, b a").
Proof.
  apply (classify_bag_of_words model_two).
  change (tokenize (text "a b, b")) with [text "a"; text "b"; text "b"].
  change (tokenize (text "b, b a")) with [text "b"; text "b"; text "a"].
  apply Permutation_cons_append.
Defined.

(** The witness of X8: equal priors, and "a" is likelier in ham. *)
Lemma classify_follows_evidence_witness :
  classify model_two (text "a, a?") = classified_as ham.
Proof.
  apply (classify_follows_evidence 1%Q corpus_two model_two (text "a, a?")
           train_corpus_two eq_refl).
  - discriminate.
  - intros word s h Hword.
    change (recognized _ _) with [text "a"; text "a"] in Hword.
    assert (word = text "a") as ->.
    { by apply elem_of_cons in Hword as [|[|[]%elem_of_nil]%elem_of_cons]. }
    intros [= <-] [= <-]. discriminate.
  - right. apply Exists_cons_hd. reflexivity.
Defined.

(** The witness of X10: one row of each kind. *)
Lemma f1_score_formula_witness :
  (f1_score [(1, 1); (1, 0); (0, 1); (0, 0)]%Z == 1 # 2)%Q.
Proof.
  destruct (f1_score_formula [(1, 1); (1, 0); (0, 1); (0, 0)]%Z) as (_ & _ & _ & _ & Hf1);
    [reflexivity|].
  rewrite Hf1. reflexivity.
Defined.
